(** * Track Timer Pro: lap calculator, timer state machine, persistence and
    export, embedded from [src/App.tsx] and [src/types.ts].

    Numbers are JavaScript numbers holding integers (milliseconds, metres,
    counters); they are modelled as [Z], which is exact for the code's
    arithmetic as long as the values stay within
    [Number.MAX_SAFE_INTEGER]; [NaN] and the infinities appear only where
    the save effect is modelled ([JsNumber]).  [Date.now()] is an explicit
    argument of every handler that reads the clock.  A JS object whose shape
    is not fixed by a TypeScript interface at run time (the result of
    [JSON.parse]) is a [gmap string JsVal]. *)

From Stdlib Require Import ZArith Lia.
From stdpp Require Import base option list gmap strings pretty.

Set Warnings "-register-all".
Local Open Scope Z_scope.

(* ===================================================================== *)
(** ** Data model ([src/types.ts]) *)
(* ===================================================================== *)

Record Lap := mkLap {
  lapNumber : Z;
  totalTime : Z;
  totalDistance : Z;
  timestamp : Z;
}.

Record Athlete := mkAthlete {
  id : Z;
  name : string;
  startTime : option Z;          (* number | null *)
  time : Z;
  laps : list Lap;
  isRunning : bool;
  targetDistance : Z;
  targetTime : Z;
  pbDistance : Z;
  pbTime : Z;
  lapDistance : Z;
}.

(** Object-spread updates [{ ...athlete, f: v }] used by the handlers. *)
Definition with_laps (a : Athlete) (ls : list Lap) : Athlete :=
  mkAthlete (id a) (name a) (startTime a) (time a) ls (isRunning a)
            (targetDistance a) (targetTime a) (pbDistance a) (pbTime a)
            (lapDistance a).

Definition with_time (a : Athlete) (t : Z) : Athlete :=
  mkAthlete (id a) (name a) (startTime a) t (laps a) (isRunning a)
            (targetDistance a) (targetTime a) (pbDistance a) (pbTime a)
            (lapDistance a).

Definition with_run (a : Athlete) (r : bool) (st : option Z) : Athlete :=
  mkAthlete (id a) (name a) st (time a) (laps a) r
            (targetDistance a) (targetTime a) (pbDistance a) (pbTime a)
            (lapDistance a).

(** JavaScript [x || d] on numbers: [0] (and [NaN], which [None] stands for
    where a parse can fail) is falsy. *)
Definition num_or (x d : Z) : Z := if x =? 0 then d else x.

Definition parsed_or (x : option Z) (d : Z) : Z :=
  match x with
  | Some n => num_or n d
  | None => d
  end.

(* ===================================================================== *)
(** ** Lap calculator ([calculateNextLap], App.tsx lines 10-40) *)
(* ===================================================================== *)

(** [athlete.laps.length > 0 ? athlete.laps[athlete.laps.length - 1] : null] *)
Definition lastLapOf (athlete : Athlete) : option Lap :=
  if (0 <? length (laps athlete))%nat
  then laps athlete !! (length (laps athlete) - 1)%nat
  else None.

(** [lastLap ? lastLap.totalDistance : 0] *)
Definition lastLapDistanceOf (athlete : Athlete) : Z :=
  match lastLapOf athlete with
  | Some lastLap => totalDistance lastLap
  | None => 0
  end.

(** The function returns the lap array of the athlete: the same array when
    the race is finished, the array extended by the new lap otherwise.
    [now] is the value of [Date.now()] stored in the new lap. *)
Definition calculateNextLap (now : Z) (athlete : Athlete) (currentTime : Z)
  : list Lap :=
  let lastLapDistance := lastLapDistanceOf athlete in
  if (0 <? targetDistance athlete)
     && (targetDistance athlete <=? lastLapDistance)
  then laps athlete
  else
    let lapNumber := Z.of_nat (length (laps athlete)) + 1 in
    let newTotalDistance :=
      if 0 <? targetDistance athlete then
        let candidate := lastLapDistance + lapDistance athlete in
        if (lastLapDistance <? targetDistance athlete)
           && (targetDistance athlete <=? candidate)
        then targetDistance athlete
        else candidate
      else 0 in
    laps athlete ++ [mkLap lapNumber currentTime newTotalDistance now].

(* ===================================================================== *)
(** ** Timer state machine (the handlers of [App]) *)
(* ===================================================================== *)

(** The component state the handlers touch: the athlete list and the
    [nextId] ref.  The form fields and [editingAthleteId], which
    [handleAddAthlete] and [handleUpdateAthlete] also reset, are view
    state and are left out. *)
Record App := mkApp {
  athletes : list Athlete;
  nextId : Z;
}.

(** Payload of [handleUpdateAthlete]. *)
Record UpdatedData := mkUpdatedData {
  u_name : string;
  u_targetDistance : Z;
  u_targetTime : Z;
  u_pbTime : Z;
  u_lapDistance : Z;
}.

(** The form fields of [handleAddAthlete], after the library calls that
    read them: [newName] is [newAthleteName.trim()], the distances are the
    results of [parseInt(_, 10)] ([None] for [NaN]) and the times the
    results of [parseTime], which lives outside [src/]. *)
Record NewAthleteForm := mkForm {
  f_name : string;
  f_targetDistance : option Z;
  f_lapDistance : option Z;
  f_targetTime : Z;
  f_pbTime : Z;
}.

Definition newAthlete (nid : Z) (f : NewAthleteForm) : Athlete :=
  {| id := nid;
     name := f_name f;
     startTime := None;
     time := 0;
     laps := [];
     isRunning := false;
     targetDistance := parsed_or (f_targetDistance f) 0;
     lapDistance := parsed_or (f_lapDistance f) 400;
     targetTime := f_targetTime f;
     pbDistance := parsed_or (f_targetDistance f) 0;
     pbTime := f_pbTime f |}.

Definition handleAddAthlete (f : NewAthleteForm) (s : App) : App :=
  if bool_decide (f_name f = ""%string) then s
  else mkApp (athletes s ++ [newAthlete (nextId s) f]) (nextId s + 1).

Definition handleRemoveAthlete (i : Z) (prev : list Athlete) : list Athlete :=
  List.filter (fun athlete => negb (id athlete =? i)) prev.

Definition startStopOne (i now : Z) (athlete : Athlete) : Athlete :=
  if id athlete =? i then
    if isRunning athlete then
      with_run (with_laps athlete (calculateNextLap now athlete (time athlete)))
               false None
    else
      with_run athlete true (Some (now - time athlete))
  else athlete.

Definition handleStartStop (i now : Z) (prevAthletes : list Athlete)
  : list Athlete :=
  map (startStopOne i now) prevAthletes.

Definition lapOne (i now : Z) (athlete : Athlete) : Athlete :=
  if (id athlete =? i) && isRunning athlete then
    with_laps athlete (calculateNextLap now athlete (time athlete))
  else athlete.

Definition handleLap (i now : Z) (prevAthletes : list Athlete) : list Athlete :=
  map (lapOne i now) prevAthletes.

Definition resetOne (i : Z) (athlete : Athlete) : Athlete :=
  if id athlete =? i then
    with_run (with_laps (with_time athlete 0) []) false None
  else athlete.

Definition handleReset (i : Z) (prevAthletes : list Athlete) : list Athlete :=
  map (resetOne i) prevAthletes.

Definition updateOne (i : Z) (updatedData : UpdatedData) (athlete : Athlete)
  : Athlete :=
  if id athlete =? i then
    {| id := id athlete;
       name := u_name updatedData;
       startTime := startTime athlete;
       time := time athlete;
       laps := laps athlete;
       isRunning := isRunning athlete;
       targetDistance := u_targetDistance updatedData;
       targetTime := u_targetTime updatedData;
       pbDistance := u_targetDistance updatedData;
       pbTime := u_pbTime updatedData;
       lapDistance := u_lapDistance updatedData |}
  else athlete.

Definition handleUpdateAthlete (i : Z) (updatedData : UpdatedData)
  (prev : list Athlete) : list Athlete :=
  map (updateOne i updatedData) prev.

(** The animation-frame callback [updateTimers]; [athlete.startTime] is
    truthy when it is a non-zero number. *)
Definition tickOne (now : Z) (athlete : Athlete) : Athlete :=
  match startTime athlete with
  | Some st =>
      if isRunning athlete && negb (st =? 0)
      then with_time athlete (now - st)
      else athlete
  | None => athlete
  end.

Definition updateTimers (now : Z) (prevAthletes : list Athlete)
  : list Athlete :=
  map (tickOne now) prevAthletes.

(** The load initializer (lines 44-64) seen on typed records: what it does
    to an athlete that this application saved.  The same initializer on
    parsed JSON values is [load] below. *)
Definition reloadLap (l : Lap) : Lap :=
  mkLap (lapNumber l) (totalTime l) (totalDistance l) (num_or (timestamp l) 0).

Definition reloadAthlete (a : Athlete) : Athlete :=
  {| id := id a;
     name := name a;
     startTime := None;
     time := time a;
     laps := reloadLap <$> laps a;
     isRunning := false;
     targetDistance := targetDistance a;
     targetTime := targetTime a;
     pbDistance := pbDistance a;
     pbTime := pbTime a;
     lapDistance := num_or (lapDistance a) 400 |}.

(** The initial value of the [nextId] ref (line 76). *)
Definition initialNextId (l : list Athlete) : Z :=
  match id <$> l with
  | [] => 0
  | x :: xs => foldl Z.max x xs + 1
  end.

(** User commands and the refresh tick, with the clock value each one
    reads; [CReload] is a page reload, which saves nothing new and runs the
    initializers again on the stored list. *)
Inductive Command :=
| CAdd (f : NewAthleteForm)
| CRemove (i : Z)
| CStartStop (i now : Z)
| CLap (i now : Z)
| CReset (i : Z)
| CEdit (i : Z) (updatedData : UpdatedData)
| CTick (now : Z)
| CReload.

Definition on_athletes (f : list Athlete → list Athlete) (s : App) : App :=
  mkApp (f (athletes s)) (nextId s).

Definition step (c : Command) (s : App) : App :=
  match c with
  | CAdd f => handleAddAthlete f s
  | CRemove i => on_athletes (handleRemoveAthlete i) s
  | CStartStop i now => on_athletes (handleStartStop i now) s
  | CLap i now => on_athletes (handleLap i now) s
  | CReset i => on_athletes (handleReset i) s
  | CEdit i d => on_athletes (handleUpdateAthlete i d) s
  | CTick now => on_athletes (updateTimers now) s
  | CReload =>
      mkApp (reloadAthlete <$> athletes s)
            (initialNextId (reloadAthlete <$> athletes s))
  end.

(** A session that starts with nothing in the store. *)
Definition initialApp : App := mkApp [] 0.

Definition run (cs : list Command) (s : App) : App :=
  foldl (fun st c => step c st) s cs.

(** States reachable from the empty session by commands that the guard
    [ok] admits in the state where they are issued. *)
Inductive reachable (ok : App → Command → Prop) : App → Prop :=
| reach_init : reachable ok initialApp
| reach_step s c :
    reachable ok s → ok s c → reachable ok (step c s).

Definition any_command (_ : App) (_ : Command) : Prop := True.

(* ===================================================================== *)
(** ** Persistence: the load initializer (lines 44-64) and the save effect
       (lines 104-110) *)
(* ===================================================================== *)

(** Values [JSON.parse] can return. *)
Inductive JsVal :=
| JNull
| JBool (b : bool)
| JNum (n : Z)
| JStr (s : string)
| JArr (xs : list JsVal)
| JObj (fields : gmap string JsVal).

(** Truthiness of the result of a property read; [None] is [undefined]. *)
Definition truthy (v : option JsVal) : bool :=
  match v with
  | None => false
  | Some JNull => false
  | Some (JBool b) => b
  | Some (JNum n) => negb (n =? 0)
  | Some (JStr s) => negb (bool_decide (s = ""%string))
  | Some (JArr _) => true
  | Some (JObj _) => true
  end.

(** [x || d] *)
Definition js_or (x : option JsVal) (d : JsVal) : JsVal :=
  match x with
  | Some v => if truthy x then v else d
  | None => d
  end.

(** The own enumerable properties that an object spread [{ ...v }] copies:
    the fields of an object, the indexed elements of an array or of a
    string (its characters, which are the UTF-16 units of the code for
    ASCII text), nothing for [null], a boolean or a number. *)
Definition ownProps (v : JsVal) : gmap string JsVal :=
  match v with
  | JObj fields => fields
  | JArr xs => list_to_map (imap (fun i x => (pretty i, x)) xs)
  | JStr s =>
      list_to_map
        (imap (fun i c => (pretty i, JStr (String c EmptyString)))
              (String.list_ascii_of_string s))
  | JNull | JBool _ | JNum _ => ∅
  end.

(** The property reads of the initializer: [v.lapDistance], [v.laps] and
    [v.timestamp].  None of these names is an index or a member of a
    built-in prototype, so only an object can hold them; reading from
    [null] throws ([None]). *)
Definition getProp (v : JsVal) (k : string) : option (option JsVal) :=
  match v with
  | JNull => None
  | JObj fields => Some (fields !! k)
  | JBool _ | JNum _ | JStr _ | JArr _ => Some None
  end.

(** [lap => ({ ...lap, timestamp: lap.timestamp || 0 })] *)
Definition normalizeLap (lap : JsVal) : option JsVal :=
  ts ← getProp lap "timestamp";
  Some (JObj (<["timestamp" := js_or ts (JNum 0)]> (ownProps lap))).

(** [xs.map(f)] is a [TypeError] unless [xs] is an array: a parsed value
    holds no function, so nothing else has a callable [map]. *)
Definition asArray (v : JsVal) : option (list JsVal) :=
  match v with
  | JArr xs => Some xs
  | _ => None
  end.

(** The callback of [parsedAthletes.map] (lines 50-58); [None] when it
    throws. *)
Definition normalizeAthlete (athlete : JsVal) : option JsVal :=
  ld ← getProp athlete "lapDistance";
  ls ← getProp athlete "laps";
  lapsArr ← asArray (js_or ls (JArr []));
  newLaps ← mapM normalizeLap lapsArr;
  Some (JObj (<["laps" := JArr newLaps]>
             (<["lapDistance" := js_or ld (JNum 400)]>
             (<["startTime" := JNull]>
             (<["isRunning" := JBool false]>
             (ownProps athlete)))))).

(** The initializer of the [athletes] state.  [savedAthletes] is what
    [JSON.parse(localStorage.getItem(...))] yields: [None] when the slot is
    empty or its content does not parse.  Every exception ends in the
    [catch] and the final [return []]. *)
Definition load (savedAthletes : option JsVal) : list JsVal :=
  match savedAthletes with
  | Some (JArr parsedAthletes) =>
      default [] (mapM normalizeAthlete parsedAthletes)
  | _ => []
  end.

(** What [JSON.stringify] writes for a lap and for an athlete, as the tree
    [JSON.parse] rebuilds from that text. *)
Definition lapToJSON (l : Lap) : JsVal :=
  JObj (<["lapNumber" := JNum (lapNumber l)]>
       (<["totalTime" := JNum (totalTime l)]>
       (<["totalDistance" := JNum (totalDistance l)]>
       (<["timestamp" := JNum (timestamp l)]> ∅)))).

Definition startTimeToJSON (st : option Z) : JsVal :=
  match st with
  | Some t => JNum t
  | None => JNull
  end.

Definition athleteToJSON (a : Athlete) : JsVal :=
  JObj (<["id" := JNum (id a)]>
       (<["name" := JStr (name a)]>
       (<["startTime" := startTimeToJSON (startTime a)]>
       (<["time" := JNum (time a)]>
       (<["laps" := JArr (lapToJSON <$> laps a)]>
       (<["isRunning" := JBool (isRunning a)]>
       (<["targetDistance" := JNum (targetDistance a)]>
       (<["targetTime" := JNum (targetTime a)]>
       (<["pbDistance" := JNum (pbDistance a)]>
       (<["pbTime" := JNum (pbTime a)]>
       (<["lapDistance" := JNum (lapDistance a)]> ∅))))))))))).

(** The save effect: the slot holds the serialized athlete list.  The
    numbers of these records are finite; [saveValues] below is the same
    effect on values that can hold [NaN] or an infinity. *)
Definition save (l : list Athlete) : option JsVal :=
  Some (JArr (athleteToJSON <$> l)).

(* ===================================================================== *)
(** ** Export: the lap rows of [handleDownload] (lines 224-256) *)
(* ===================================================================== *)

(** A lap object on the heap: [ref] is its identity, which is all that
    [l === lap] compares. *)
Record LapObj := mkLapObj {
  ref : nat;
  obj : Lap;
}.

Definition same_object (l lap : LapObj) : bool :=
  bool_decide (ref l = ref lap).

(** [Array.prototype.findIndex]: the first index whose element satisfies
    the predicate, [-1] when there is none. *)
Fixpoint findIndexFrom {A} (p : A → bool) (i : Z) (l : list A) : Z :=
  match l with
  | [] => -1
  | x :: rest => if p x then i else findIndexFrom p (i + 1) rest
  end.

Definition findIndex {A} (p : A → bool) (l : list A) : Z :=
  findIndexFrom p 0 l.

(** The range test of the filter; [end_ = None] is [Infinity]. *)
Definition inRange (start : Z) (end_ : option Z) (lap : Lap) : bool :=
  let lapTimestamp := num_or (timestamp lap) 0 in
  (start <=? lapTimestamp)
  && match end_ with
     | Some e => lapTimestamp <=? e
     | None => true
     end.

(** One line of the table, before [formatTime] and [toLocaleString]
    (both outside [src/]) render the numbers. *)
Record Row := mkRow {
  r_lap : Z;
  r_dist : Z;
  r_lapTime : Z;
  r_totalTime : Z;
  r_timestamp : Z;
}.

(** The body of [lapsInRange.forEach]; [None] if the element before
    [originalLapIndex] were missing (a [TypeError]). *)
Definition exportRow (allLaps : list LapObj) (lap : LapObj) : option Row :=
  let originalLapIndex := findIndex (fun l => same_object l lap) allLaps in
  lapTime ←
    (if 0 <? originalLapIndex then
       prev ← allLaps !! Z.to_nat (originalLapIndex - 1);
       Some (totalTime (obj lap) - totalTime (obj prev))
     else Some (totalTime (obj lap)));
  Some (mkRow (lapNumber (obj lap)) (totalDistance (obj lap)) lapTime
              (totalTime (obj lap)) (timestamp (obj lap))).

Definition lapsInRange (start : Z) (end_ : option Z) (allLaps : list LapObj)
  : list LapObj :=
  List.filter (fun lap => inRange start end_ (obj lap)) allLaps.

Definition exportRows (start : Z) (end_ : option Z) (allLaps : list LapObj)
  : option (list Row) :=
  mapM (exportRow allLaps) (lapsInRange start end_ allLaps).

(** The lap array of an athlete as the export sees it: every lap was
    allocated by its own object literal, so the identities differ. *)
Definition heapLaps (a : Athlete) : list LapObj :=
  imap mkLapObj (laps a).

(** The "Lap Time" column as the specification words it: the delta from the
    previous lap of the filtered list, the first lap's own [totalTime]. *)
Fixpoint specDeltas (prev : Z) (ls : list Lap) : list Z :=
  match ls with
  | [] => []
  | l :: rest => (totalTime l - prev) :: specDeltas (totalTime l) rest
  end.

Definition specLapTimes (start : Z) (end_ : option Z) (ls : list Lap)
  : list Z :=
  specDeltas 0 (List.filter (inRange start end_) ls).

(** The "Lap Time" column as the code computes it: every lap paired with
    the delta from its predecessor in the whole lap array. *)
Fixpoint withDeltas (prev : Z) (ls : list Lap) : list (Lap * Z) :=
  match ls with
  | [] => []
  | l :: rest => (l, totalTime l - prev) :: withDeltas (totalTime l) rest
  end.

Definition rowOf (p : Lap * Z) : Row :=
  mkRow (lapNumber p.1) (totalDistance p.1) p.2 (totalTime p.1)
        (timestamp p.1).

(** [totalTime] of the last lap of a prefix of the lap array, 0 for the
    empty prefix. *)
Definition prevTotalTime (pre : list LapObj) : Z :=
  match last pre with
  | Some p => totalTime (obj p)
  | None => 0
  end.

(** The lap times of the rows the export writes. *)
Definition exportedLapTimes (start : Z) (end_ : option Z) (a : Athlete)
  : option (list Z) :=
  match exportRows start end_ (heapLaps a) with
  | Some rows => Some (map r_lapTime rows)
  | None => None
  end.

(* ===================================================================== *)
(** ** Properties of an athlete that the specification states *)
(* ===================================================================== *)

(** [laps[i].lapNumber == i+1] *)
Definition numbered (a : Athlete) : Prop :=
  ∀ (i : nat) (l : Lap), laps a !! i = Some l → lapNumber l = Z.of_nat i + 1.

(** [laps[i].totalDistance <= laps[i+1].totalDistance] *)
Definition nondecreasing_distance (a : Athlete) : Prop :=
  ∀ (i : nat) (x y : Lap),
    laps a !! i = Some x → laps a !! S i = Some y →
    totalDistance x ≤ totalDistance y.

(** In distance mode no lap is beyond the target. *)
Definition within_target (a : Athlete) : Prop :=
  0 < targetDistance a →
  ∀ l : Lap, l ∈ laps a → totalDistance l ≤ targetDistance a.

(** In simple mode every lap has distance zero. *)
Definition simple_mode_zero (a : Athlete) : Prop :=
  targetDistance a = 0 →
  ∀ l : Lap, l ∈ laps a → totalDistance l = 0.

(** Commands that keep the recorded distances consistent with the
    configuration: a lap distance is never negative, and an edit does not
    move the target below a distance already recorded for the athlete it
    edits (below or at zero, the target counts as zero). *)
Definition distance_consistent (s : App) (c : Command) : Prop :=
  match c with
  | CAdd f => 0 ≤ parsed_or (f_lapDistance f) 400
  | CEdit i d =>
      0 ≤ u_lapDistance d ∧
      ∀ a : Athlete, a ∈ athletes s → id a = i →
        ∀ l : Lap, l ∈ laps a → totalDistance l ≤ Z.max 0 (u_targetDistance d)
  | _ => True
  end.

(** Commands among which no edit switches an athlete to simple mode while
    it holds a lap with a distance. *)
Definition simple_mode_consistent (s : App) (c : Command) : Prop :=
  match c with
  | CEdit i d =>
      u_targetDistance d = 0 →
      ∀ a : Athlete, a ∈ athletes s → id a = i →
        ∀ l : Lap, l ∈ laps a → totalDistance l = 0
  | _ => True
  end.

(** The athletes a command aimed at [i] is not about. *)
Definition others (i : Z) (l : list Athlete) : list Athlete :=
  List.filter (fun a => negb (id a =? i)) l.

(** The invariant behind the distance properties: the distances are
    ordered, none is beyond the target (a target at or below zero counts as
    zero) and the lap distance is not negative. *)
Definition distance_inv (a : Athlete) : Prop :=
  nondecreasing_distance a
  ∧ (∀ l : Lap, l ∈ laps a → totalDistance l ≤ Z.max 0 (targetDistance a))
  ∧ 0 ≤ lapDistance a.

(** Sessions without any edit. *)
Definition no_edit (_ : App) (c : Command) : Prop :=
  match c with
  | CEdit _ _ => False
  | _ => True
  end.

(** The athlete id a per-athlete command is aimed at. *)
Definition target_of (c : Command) : option Z :=
  match c with
  | CRemove i => Some i
  | CStartStop i _ => Some i
  | CLap i _ => Some i
  | CReset i => Some i
  | CEdit i _ => Some i
  | CAdd _ | CTick _ | CReload => None
  end.

(** The distance the calculator gives the lap it appends. *)
Definition nextDistance (a : Athlete) : Z :=
  if 0 <? targetDistance a then
    if (lastLapDistanceOf a <? targetDistance a)
       && (targetDistance a <=? lastLapDistanceOf a + lapDistance a)
    then targetDistance a
    else lastLapDistanceOf a + lapDistance a
  else 0.

(* ===================================================================== *)
(** ** Concrete athletes and sessions used as test inputs *)
(* ===================================================================== *)

Definition finishedRunner : Athlete :=
  {| id := 7; name := "Ada"; startTime := Some 5000; time := 200000;
     laps := [mkLap 1 60000 400 65000; mkLap 2 130000 800 135000;
              mkLap 3 200000 1000 205000];
     isRunning := true; targetDistance := 1000; targetTime := 0;
     pbDistance := 1000; pbTime := 0; lapDistance := 400 |}.

(** A stopped athlete as [handleAddAthlete] creates it: target 1000 m in
    laps of 400 m. *)
Definition freshRunner : Athlete :=
  newAthlete 0 (mkForm "Ada" (Some 1000) (Some 400) 0 0).

(** Two athletes side by side, the second one running with two laps. *)
Definition twoRunners : App :=
  mkApp [freshRunner;
         {| id := 1; name := "Bo"; startTime := Some 1000; time := 130000;
            laps := [mkLap 1 60000 400 61000; mkLap 2 130000 800 131000];
            isRunning := true; targetDistance := 1600; targetTime := 0;
            pbDistance := 1600; pbTime := 0; lapDistance := 400 |}]
        2.

(** A session: Ada is added with a 1000 m target in laps of 400 m, starts,
    and records a lap after one minute. *)
Definition adaData (target : Z) : UpdatedData :=
  mkUpdatedData "Ada" target 0 0 400.

Definition sessionOneLap : list Command :=
  [CAdd (mkForm "Ada" (Some 1000) (Some 400) 0 0);
   CStartStop 0 1000; CTick 61000; CLap 0 61000].

(** ... then the target is edited down to 300 m. *)
Definition sessionShrinkTarget : list Command :=
  sessionOneLap ++ [CEdit 0 (adaData 300)].

(** ... or the athlete is switched to simple mode. *)
Definition sessionToSimpleMode : list Command :=
  sessionOneLap ++ [CEdit 0 (adaData 0)].

(** ... and records a second lap there. *)
Definition sessionSimpleModeLap : list Command :=
  sessionToSimpleMode ++ [CTick 131000; CLap 0 131000].

(** ... or keeps the configuration and runs to the end of the race. *)
Definition sessionFullRace : list Command :=
  sessionOneLap ++ [CTick 131000; CLap 0 131000; CTick 201000;
                    CStartStop 0 201000].

Definition adaWith (target : Z) (run : bool) (st : option Z) (t : Z)
  (ls : list Lap) : Athlete :=
  {| id := 0; name := "Ada"; startTime := st; time := t; laps := ls;
     isRunning := run; targetDistance := target; targetTime := 0;
     pbDistance := target; pbTime := 0; lapDistance := 400 |}.

(** ... or has the target raised to 1600 m and records a second lap. *)
Definition sessionRaiseTarget : list Command :=
  sessionOneLap ++ [CEdit 0 (adaData 1600); CTick 131000; CLap 0 131000].

(** A session in simple mode from the start, with an edit after the first
    lap that keeps the athlete in simple mode. *)
Definition sessionSimpleFirst : list Command :=
  [CAdd (mkForm "Ada" None (Some 400) 0 0);
   CStartStop 0 1000; CTick 61000; CLap 0 61000;
   CEdit 0 (adaData 0); CTick 131000; CLap 0 131000].

(** An athlete with two laps, the first recorded at wall-clock time 61000
    and the second at 131000. *)
Definition twoLapRunner : Athlete :=
  adaWith 1000 true (Some 1000) 130000
    [mkLap 1 60000 400 61000; mkLap 2 130000 800 131000].


Definition zeroLapDistance : Athlete :=
  {| id := 3; name := "Cy"; startTime := None; time := 0; laps := [];
     isRunning := false; targetDistance := 0; targetTime := 0;
     pbDistance := 0; pbTime := 0; lapDistance := 0 |}.

(** The lap distance field of the form holds "-400": [parseInt] gives
    [-400], which is truthy, so the default does not replace it. *)
Definition sessionNegativeLapDistance : list Command :=
  [CAdd (mkForm "Ada" (Some 1000) (Some (-400)) 0 0);
   CStartStop 0 1000; CTick 61000; CLap 0 61000; CTick 131000;
   CLap 0 131000].

Definition negativeRunner : Athlete :=
  {| id := 0; name := "Ada"; startTime := Some 1000; time := 130000;
     laps := [mkLap 1 60000 (-400) 61000; mkLap 2 130000 (-800) 131000];
     isRunning := true; targetDistance := 1000; targetTime := 0;
     pbDistance := 1000; pbTime := 0; lapDistance := -400 |}.

(* ===================================================================== *)
(** ** Further properties of athletes and sessions *)
(* ===================================================================== *)

(** [startTime] is set exactly while the timer runs. *)
Definition run_state_consistent (a : Athlete) : Prop :=
  isRunning a = true ↔ is_Some (startTime a).

(** The ids are pairwise different and below the [nextId] counter. *)
Definition ids_fresh (s : App) : Prop :=
  NoDup (id <$> athletes s) ∧ ∀ a : Athlete, a ∈ athletes s → id a < nextId s.



(** The clock value a command reads, if any. *)
Definition clock_of (c : Command) : option Z :=
  match c with
  | CStartStop _ now => Some now
  | CLap _ now => Some now
  | CTick now => Some now
  | CAdd _ | CRemove _ | CReset _ | CEdit _ _ | CReload => None
  end.

(** States reachable while [Date.now()] never goes backwards; the first
    index is the latest clock value read so far. *)
Inductive reachable_clock : Z → App → Prop :=
| rc_init t0 : reachable_clock t0 initialApp
| rc_step t s c :
    reachable_clock t s →
    (∀ now, clock_of c = Some now → t ≤ now) →
    reachable_clock (default t (clock_of c)) (step c s).

(** What a monotone clock gives for one athlete at clock value [t]. *)
Definition chronological (t : Z) (a : Athlete) : Prop :=
  0 ≤ time a
  ∧ (∀ l : Lap, l ∈ laps a →
       0 ≤ totalTime l ∧ totalTime l ≤ time a ∧ timestamp l ≤ t)
  ∧ (∀ (i : nat) (x y : Lap),
       laps a !! i = Some x → laps a !! S i = Some y →
       totalTime x ≤ totalTime y ∧ timestamp x ≤ timestamp y)
  ∧ (∀ st : Z, isRunning a = true → startTime a = Some st →
       time a ≤ t - st).

(** The clock values of a command list never go backwards, starting at
    [t]; the clock value after the list. *)
Fixpoint clock_monotone (t : Z) (cs : list Command) : bool :=
  match cs with
  | [] => true
  | c :: rest =>
      match clock_of c with
      | Some now => (t <=? now) && clock_monotone now rest
      | None => clock_monotone t rest
      end
  end.

Definition final_clock (t : Z) (cs : list Command) : Z :=
  foldl (fun t c => default t (clock_of c)) t cs.

(** Three athletes are added and the first one is removed before the
    third is added. *)
Definition sessionThreeAdds : list Command :=
  [CAdd (mkForm "Ada" (Some 1000) (Some 400) 0 0);
   CAdd (mkForm "Bo" None None 0 0);
   CRemove 0;
   CAdd (mkForm "Cy" (Some 1600) (Some 0) 0 0)].


(** A stopped athlete in simple mode with 65 s on the timer and one lap,
    and the same athlete running. *)
Definition pausedRunner : Athlete :=
  {| id := 4; name := "Di"; startTime := None; time := 65000;
     laps := [mkLap 1 65000 0 1700000065000];
     isRunning := false; targetDistance := 0; targetTime := 0;
     pbDistance := 0; pbTime := 0; lapDistance := 400 |}.

Definition simpleRunner : Athlete :=
  with_run pausedRunner true (Some 1700000000000).

(** What a reset leaves of an athlete: the identity and the configuration,
    with the timer cleared. *)
Definition cleared (a : Athlete) : Athlete :=
  {| id := id a; name := name a; startTime := None; time := 0; laps := [];
     isRunning := false; targetDistance := targetDistance a;
     targetTime := targetTime a; pbDistance := pbDistance a;
     pbTime := pbTime a; lapDistance := lapDistance a |}.

(* ===================================================================== *)
(** ** Stored contents the initializer can and cannot read *)
(* ===================================================================== *)

Definition isNull (v : JsVal) : bool :=
  match v with
  | JNull => true
  | _ => false
  end.

(** The [laps] field is usable when it is falsy (then [[]] stands in) or
    an array without [null] elements. *)
Definition lapsReadable (ls : option JsVal) : bool :=
  match js_or ls (JArr []) with
  | JArr xs => forallb (fun x => negb (isNull x)) xs
  | _ => false
  end.

(** A stored athlete the callback of the initializer does not throw on. *)
Definition loadable (athlete : JsVal) : bool :=
  match athlete with
  | JNull => false
  | JObj fields => lapsReadable (fields !! "laps")
  | JBool _ | JNum _ | JStr _ | JArr _ => true
  end.

(** The four fields the initializer writes. *)
Definition normalizedKey (k : string) : Prop :=
  k = "isRunning"%string ∨ k = "startTime"%string
  ∨ k = "lapDistance"%string ∨ k = "laps"%string.

(** Stored data from before lap distances and timestamps existed, with a
    field this version does not know, next to a broken record. *)
Definition legacyLap : JsVal :=
  JObj (<["lapNumber" := JNum 1]> (<["totalTime" := JNum 60000]>
       (<["totalDistance" := JNum 400]> ∅))).

Definition legacyAthlete : gmap string JsVal :=
  <["id" := JNum 0]> (<["name" := JStr "Ada"]>
  (<["isRunning" := JBool true]> (<["startTime" := JNum 1000]>
  (<["time" := JNum 60000]> (<["laps" := JArr [legacyLap]]>
  (<["club" := JStr "AC"]> ∅)))))).

Definition brokenAthlete : JsVal :=
  JObj (<["id" := JNum 1]> (<["laps" := JNum 5]> ∅)).

(* ===================================================================== *)
(** ** Export: the whole of [handleDownload] (lines 213-273) *)
(* ===================================================================== *)

(** The block the report holds for one athlete: the name, the "Target"
    and "PB" lines when they are written (distance and time, before
    [formatTime] renders the time) and the lap rows. *)
Record Block := mkBlock {
  b_name : string;
  b_target : option (Z * Z);
  b_pb : option (Z * Z);
  b_rows : list Row;
}.

(** What the handler ends with: the alert, or the file with its blocks
    (the title and the export date, which come first, carry no data). *)
Inductive Download :=
| NoData
| File (blocks : list Block).

(** [if (dist > 0 && t > 0) content += ...] *)
Definition headerLine (dist t : Z) : option (Z * Z) :=
  if (0 <? dist) && (0 <? t) then Some (dist, t) else None.

(** The body of [athletes.forEach] on the two variables it updates,
    [content] and [hasData]. *)
Definition downloadAthlete (start : Z) (end_ : option Z)
  (acc : list Block * bool) (athlete : Athlete)
  : option (list Block * bool) :=
  let inRangeLaps := lapsInRange start end_ (heapLaps athlete) in
  if (length inRangeLaps =? 0)%nat then Some acc
  else
    rows ← mapM (exportRow (heapLaps athlete)) inRangeLaps;
    Some (acc.1 ++ [mkBlock (name athlete)
                      (headerLine (targetDistance athlete)
                                  (targetTime athlete))
                      (headerLine (pbDistance athlete) (pbTime athlete))
                      rows],
          true).

Fixpoint forEachAthlete (start : Z) (end_ : option Z)
  (acc : list Block * bool) (l : list Athlete)
  : option (list Block * bool) :=
  match l with
  | [] => Some acc
  | athlete :: rest =>
      match downloadAthlete start end_ acc athlete with
      | Some acc' => forEachAthlete start end_ acc' rest
      | None => None
      end
  end.

Definition handleDownload (start : Z) (end_ : option Z)
  (l : list Athlete) : option Download :=
  match forEachAthlete start end_ ([], false) l with
  | Some (content, hasData) =>
      Some (if hasData then File content else NoData)
  | None => None
  end.

(** An athlete with a lap inside the range, and its block. *)
Definition hasLapInRange (start : Z) (end_ : option Z) (a : Athlete) : bool :=
  existsb (inRange start end_) (laps a).

Definition blockOf (start : Z) (end_ : option Z) (a : Athlete) : Block :=
  mkBlock (name a)
    (headerLine (targetDistance a) (targetTime a))
    (headerLine (pbDistance a) (pbTime a))
    (rowOf <$> List.filter (fun p => inRange start end_ p.1)
                 (withDeltas 0 (laps a))).

(** Two athletes for the export: Ada with laps on two days and a target
    time, Bo without any lap. *)
Definition exportList : list Athlete :=
  [{| id := 0; name := "Ada"; startTime := None; time := 130000;
      laps := [mkLap 1 60000 400 1700000000000;
               mkLap 2 130000 800 1700090000000];
      isRunning := false; targetDistance := 1000; targetTime := 180000;
      pbDistance := 1000; pbTime := 0; lapDistance := 400 |};
   {| id := 1; name := "Bo"; startTime := None; time := 0; laps := [];
      isRunning := false; targetDistance := 0; targetTime := 0;
      pbDistance := 0; pbTime := 0; lapDistance := 400 |}].

(* ===================================================================== *)
(** ** Saving numbers that JSON cannot write *)
(* ===================================================================== *)

(** A JS number as [JSON.stringify] treats it: a finite value is written
    as it is, [NaN], [Infinity] and [-Infinity] are written as [null].
    The finite values are the integers of the rest of this file. *)
Inductive JsNumber :=
| Finite (n : Z)
| NonFinite.


Definition numberToJSON (x : JsNumber) : JsVal :=
  match x with
  | Finite n => JNum n
  | NonFinite => JNull
  end.



(** The [Lap] and [Athlete] objects of [src/types.ts] with every number a
    [JsNumber], as the save effect (lines 104-110) receives them. *)
Record LapValue := mkLapValue {
  v_lapNumber : JsNumber;
  v_totalTime : JsNumber;
  v_totalDistance : JsNumber;
  v_timestamp : JsNumber;
}.

Record AthleteValue := mkAthleteValue {
  av_id : JsNumber;
  av_name : string;
  av_startTime : option JsNumber;
  av_time : JsNumber;
  av_laps : list LapValue;
  av_isRunning : bool;
  av_targetDistance : JsNumber;
  av_targetTime : JsNumber;
  av_pbDistance : JsNumber;
  av_pbTime : JsNumber;
  av_lapDistance : JsNumber;
}.

(** [JSON.stringify], as the tree [JSON.parse] rebuilds from its text. *)
Definition lapFields (l : LapValue) : gmap string JsVal :=
  <["lapNumber" := numberToJSON (v_lapNumber l)]>
  (<["totalTime" := numberToJSON (v_totalTime l)]>
  (<["totalDistance" := numberToJSON (v_totalDistance l)]>
  (<["timestamp" := numberToJSON (v_timestamp l)]> ∅))).

Definition stringifyLap (l : LapValue) : JsVal := JObj (lapFields l).

Definition athleteFields (x : AthleteValue) : gmap string JsVal :=
  <["id" := numberToJSON (av_id x)]>
  (<["name" := JStr (av_name x)]>
  (<["startTime" := match av_startTime x with
                    | Some t => numberToJSON t
                    | None => JNull
                    end]>
  (<["time" := numberToJSON (av_time x)]>
  (<["laps" := JArr (stringifyLap <$> av_laps x)]>
  (<["isRunning" := JBool (av_isRunning x)]>
  (<["targetDistance" := numberToJSON (av_targetDistance x)]>
  (<["targetTime" := numberToJSON (av_targetTime x)]>
  (<["pbDistance" := numberToJSON (av_pbDistance x)]>
  (<["pbTime" := numberToJSON (av_pbTime x)]>
  (<["lapDistance" := numberToJSON (av_lapDistance x)]> ∅)))))))))).

Definition stringifyAthlete (x : AthleteValue) : JsVal :=
  JObj (athleteFields x).

Definition saveValues (l : list AthleteValue) : option JsVal :=
  Some (JArr (stringifyAthlete <$> l)).

(** The records of the state machine are the values with finite
    numbers. *)
Definition lapValue (l : Lap) : LapValue :=
  mkLapValue (Finite (lapNumber l)) (Finite (totalTime l))
             (Finite (totalDistance l)) (Finite (timestamp l)).

Definition athleteValue (a : Athlete) : AthleteValue :=
  {| av_id := Finite (id a);
     av_name := name a;
     av_startTime := Finite <$> startTime a;
     av_time := Finite (time a);
     av_laps := lapValue <$> laps a;
     av_isRunning := isRunning a;
     av_targetDistance := Finite (targetDistance a);
     av_targetTime := Finite (targetTime a);
     av_pbDistance := Finite (pbDistance a);
     av_pbTime := Finite (pbTime a);
     av_lapDistance := Finite (lapDistance a) |}.



(** What the initializer returns for a saved lap and a saved athlete. *)
Definition loadedLap (l : LapValue) : JsVal :=
  JObj (<["timestamp" := js_or (Some (numberToJSON (v_timestamp l)))
                               (JNum 0)]> (lapFields l)).

Definition loadedAthlete (x : AthleteValue) : JsVal :=
  JObj (<["laps" := JArr (loadedLap <$> av_laps x)]>
       (<["lapDistance" := js_or (Some (numberToJSON (av_lapDistance x)))
                                 (JNum 400)]>
       (<["startTime" := JNull]>
       (<["isRunning" := JBool false]>
       (athleteFields x))))).




(* ===================================================================== *)
(** ** The lap calculator *)
(* ===================================================================== *)

Lemma lastLapOf_last (a : Athlete) : lastLapOf a = last (laps a).
Proof.
  unfold lastLapOf. rewrite last_lookup.
  destruct (laps a) as [|x l]; simpl; [done|].
  by rewrite Nat.sub_0_r.
Qed.

Lemma lastLapDistanceOf_nil (a : Athlete) :
  laps a = [] → lastLapDistanceOf a = 0.
Proof.
  intros E. unfold lastLapDistanceOf. by rewrite lastLapOf_last, E.
Qed.

Lemma lastLapDistanceOf_last (a : Athlete) (l : Lap) :
  last (laps a) = Some l → lastLapDistanceOf a = totalDistance l.
Proof.
  intros E. unfold lastLapDistanceOf. by rewrite lastLapOf_last, E.
Qed.


Lemma calculateNextLap_finished (now t : Z) (a : Athlete) :
  0 < targetDistance a → targetDistance a ≤ lastLapDistanceOf a →
  calculateNextLap now a t = laps a.
Proof.
  intros Hpos Hdone. unfold calculateNextLap.
  assert ((0 <? targetDistance a) = true) as -> by lia.
  assert ((targetDistance a <=? lastLapDistanceOf a) = true) as -> by lia.
  done.
Qed.

Lemma calculateNextLap_append (now t : Z) (a : Athlete) :
  ¬ (0 < targetDistance a ∧ targetDistance a ≤ lastLapDistanceOf a) →
  calculateNextLap now a t
  = laps a ++ [mkLap (Z.of_nat (length (laps a)) + 1) t (nextDistance a) now].
Proof.
  intros Hopen. unfold calculateNextLap, nextDistance.
  destruct (0 <? targetDistance a) eqn:Hpos; simpl; [|done].
  assert ((targetDistance a <=? lastLapDistanceOf a) = false) as -> by lia.
  done.
Qed.

Lemma calculateNextLap_cases (now t : Z) (a : Athlete) :
  (0 < targetDistance a ∧ targetDistance a ≤ lastLapDistanceOf a
   ∧ calculateNextLap now a t = laps a)
  ∨ (¬ (0 < targetDistance a ∧ targetDistance a ≤ lastLapDistanceOf a)
     ∧ calculateNextLap now a t
       = laps a
           ++ [mkLap (Z.of_nat (length (laps a)) + 1) t (nextDistance a) now]).
Proof.
  destruct (decide (0 < targetDistance a ∧
                    targetDistance a ≤ lastLapDistanceOf a)) as [[H1 H2]|Hn].
  - left. auto using calculateNextLap_finished.
  - right. auto using calculateNextLap_append.
Qed.

(** A handler leaves the configuration of the athlete alone when it only
    replaces laps, time or run state. *)
Lemma lapOne_laps (i now : Z) (a : Athlete) :
  laps (lapOne i now a) = laps a
  ∨ laps (lapOne i now a) = calculateNextLap now a (time a).
Proof. unfold lapOne. destruct (_ && _); simpl; auto. Qed.

Lemma startStopOne_laps (i now : Z) (a : Athlete) :
  laps (startStopOne i now a) = laps a
  ∨ laps (startStopOne i now a) = calculateNextLap now a (time a).
Proof.
  unfold startStopOne. destruct (_ =? _), (isRunning a); simpl; auto.
Qed.

(** C5.  For an athlete in distance mode whose last lap has reached the
    target, the lap calculator returns the lap array unchanged whatever the
    elapsed time is, so neither the manual lap command nor the start/stop
    command (whose stop transition records the closing lap) changes the
    athlete's laps. *)
Theorem finished_race_appends_no_lap
  (now t i : Z) (a : Athlete) (lastLap : Lap) :
  0 < targetDistance a →
  last (laps a) = Some lastLap →
  targetDistance a ≤ totalDistance lastLap →
  calculateNextLap now a t = laps a
  ∧ laps (lapOne i now a) = laps a
  ∧ laps (startStopOne i now a) = laps a.
Proof.
  intros Hpos Hlast Hdone.
  assert (∀ t', calculateNextLap now a t' = laps a) as Hcalc.
  { intros t'. apply calculateNextLap_finished; [done|].
    by rewrite (lastLapDistanceOf_last a lastLap). }
  split; [apply Hcalc|]. split.
  - destruct (lapOne_laps i now a) as [->| ->]; [done|apply Hcalc].
  - destruct (startStopOne_laps i now a) as [->| ->]; [done|apply Hcalc].
Qed.

Lemma finished_race_appends_no_lap_witness :
  calculateNextLap 300000 finishedRunner 250000 = laps finishedRunner
  ∧ laps (lapOne 7 300000 finishedRunner) = laps finishedRunner
  ∧ laps (startStopOne 7 300000 finishedRunner) = laps finishedRunner.
Proof.
  apply (finished_race_appends_no_lap 300000 250000 7 finishedRunner
           (mkLap 3 200000 1000 205000)).
  - reflexivity.
  - reflexivity.
  - simpl. lia.
Defined.

(** C6.  Target 1000 m in laps of 400 m, no lap yet: manual laps at elapsed
    times 60000 and 130000 give the laps 1 (400 m) and 2 (800 m), the lap at
    200000 is lap 3 snapped to 1000 m, and a fourth attempt appends
    nothing. *)
Theorem scenario_1000_by_400
  (a : Athlete) (n1 n2 n3 n4 t4 : Z) :
  targetDistance a = 1000 → lapDistance a = 400 → laps a = [] →
  isRunning a = true →
  let a1 := lapOne (id a) n1 (with_time a 60000) in
  let a2 := lapOne (id a) n2 (with_time a1 130000) in
  let a3 := lapOne (id a) n3 (with_time a2 200000) in
  let a4 := lapOne (id a) n4 (with_time a3 t4) in
  laps a2 = [mkLap 1 60000 400 n1; mkLap 2 130000 800 n2]
  ∧ laps a3 = [mkLap 1 60000 400 n1; mkLap 2 130000 800 n2;
               mkLap 3 200000 1000 n3]
  ∧ calculateNextLap n4 a3 t4 = laps a3
  ∧ laps a4 = laps a3.
Proof.
  destruct a as [i nm st tm ls run td tt pd pt ld]; simpl.
  intros -> -> -> ->.
  unfold lapOne; simpl. rewrite !Z.eqb_refl; simpl.
  unfold calculateNextLap, lastLapDistanceOf, lastLapOf; simpl.
  rewrite ?Z.eqb_refl; simpl.
  repeat split; reflexivity.
Qed.

Lemma scenario_1000_by_400_witness :
  let a := with_run freshRunner true (Some 1) in
  let a1 := lapOne (id a) 60001 (with_time a 60000) in
  let a2 := lapOne (id a) 130001 (with_time a1 130000) in
  let a3 := lapOne (id a) 200001 (with_time a2 200000) in
  let a4 := lapOne (id a) 260001 (with_time a3 260000) in
  laps a2 = [mkLap 1 60000 400 60001; mkLap 2 130000 800 130001]
  ∧ laps a3 = [mkLap 1 60000 400 60001; mkLap 2 130000 800 130001;
               mkLap 3 200000 1000 200001]
  ∧ calculateNextLap 260001 a3 260000 = laps a3
  ∧ laps a4 = laps a3.
Proof.
  apply (scenario_1000_by_400 (with_run freshRunner true (Some 1))
           60001 130001 200001 260001 260000); reflexivity.
Defined.

(** C8.  Start then stop at once, with no refresh in between, on a stopped
    athlete whose time is 0: the time is still 0 and the athlete is
    stopped; in distance mode with [lapDistance <= targetDistance] and no
    prior lap, the stop records exactly one lap, at time 0 and at distance
    [min lapDistance targetDistance]. *)
Theorem start_then_stop_at_once (a : Athlete) (now1 now2 : Z) :
  isRunning a = false → time a = 0 →
  let a' := startStopOne (id a) now2 (startStopOne (id a) now1 a) in
  time a' = 0
  ∧ isRunning a' = false
  ∧ startTime a' = None
  ∧ (0 < targetDistance a → lapDistance a ≤ targetDistance a → laps a = [] →
     laps a'
     = [mkLap 1 0 (Z.min (lapDistance a) (targetDistance a)) now2]).
Proof.
  destruct a as [i nm st tm ls run td tt pd pt ld]; simpl.
  intros -> ->.
  unfold startStopOne; simpl. rewrite !Z.eqb_refl; simpl.
  repeat split.
  intros Hpos Hle ->.
  unfold calculateNextLap, lastLapDistanceOf, lastLapOf; simpl.
  assert ((0 <? td) = true) as -> by lia.
  assert ((td <=? 0) = false) as -> by lia. simpl.
  rewrite (Z.add_0_l ld).
  destruct (Z.leb_spec td ld); do 2 f_equal; lia.
Qed.

Lemma start_then_stop_at_once_witness :
  let a' := startStopOne 0 1700000000500 (startStopOne 0 1700000000000
                                                      freshRunner) in
  time a' = 0
  ∧ isRunning a' = false
  ∧ startTime a' = None
  ∧ laps a' = [mkLap 1 0 400 1700000000500].
Proof.
  pose proof (start_then_stop_at_once freshRunner 1700000000000
                1700000000500 eq_refl eq_refl) as H.
  cbv zeta in H. destruct H as (Ht & Hr & Hs & Hl).
  cbv zeta. split; [exact Ht|]. split; [exact Hr|]. split; [exact Hs|].
  apply Hl; [reflexivity | vm_compute; discriminate | reflexivity].
Defined.

(* ===================================================================== *)
(** ** Commands touch one athlete *)
(* ===================================================================== *)

Lemma startStopOne_id (i now : Z) (a : Athlete) :
  id (startStopOne i now a) = id a.
Proof. unfold startStopOne. by destruct (_ =? _), (isRunning a). Qed.

Lemma lapOne_id (i now : Z) (a : Athlete) : id (lapOne i now a) = id a.
Proof. unfold lapOne. by destruct (_ && _). Qed.

Lemma resetOne_id (i : Z) (a : Athlete) : id (resetOne i a) = id a.
Proof. unfold resetOne. by destruct (_ =? _). Qed.

Lemma updateOne_id (i : Z) (d : UpdatedData) (a : Athlete) :
  id (updateOne i d a) = id a.
Proof. unfold updateOne. by destruct (_ =? _). Qed.

Lemma startStopOne_other (i now : Z) (a : Athlete) :
  id a ≠ i → startStopOne i now a = a.
Proof. intros H. unfold startStopOne. by destruct (Z.eqb_spec (id a) i). Qed.

Lemma lapOne_other (i now : Z) (a : Athlete) : id a ≠ i → lapOne i now a = a.
Proof. intros H. unfold lapOne. by destruct (Z.eqb_spec (id a) i). Qed.

Lemma resetOne_other (i : Z) (a : Athlete) : id a ≠ i → resetOne i a = a.
Proof. intros H. unfold resetOne. by destruct (Z.eqb_spec (id a) i). Qed.

Lemma updateOne_other (i : Z) (d : UpdatedData) (a : Athlete) :
  id a ≠ i → updateOne i d a = a.
Proof. intros H. unfold updateOne. by destruct (Z.eqb_spec (id a) i). Qed.

Lemma others_map (i : Z) (f : Athlete → Athlete) (l : list Athlete) :
  (∀ a, id (f a) = id a) → (∀ a, id a ≠ i → f a = a) →
  others i (map f l) = others i l.
Proof.
  intros Hid Hother. induction l as [|a l IH]; [done|].
  simpl. rewrite Hid.
  destruct (Z.eqb_spec (id a) i) as [E|N]; simpl; [done|].
  by rewrite (Hother a N), IH.
Qed.

Lemma others_remove (i : Z) (l : list Athlete) :
  others i (handleRemoveAthlete i l) = others i l.
Proof.
  unfold handleRemoveAthlete. induction l as [|a l IH]; [done|].
  simpl. destruct (negb (id a =? i)) eqn:E; simpl; [|done].
  by rewrite E, IH.
Qed.

(** C9.  A start/stop, lap, reset, edit or remove command aimed at one id
    leaves the athletes with any other id as they were, field for field
    and in the same order; it does not touch the id counter either. *)
Theorem per_athlete_command_frame (c : Command) (i : Z) (s : App) :
  target_of c = Some i →
  others i (athletes (step c s)) = others i (athletes s)
  ∧ nextId (step c s) = nextId s.
Proof.
  destruct c as [f|j|j now|j now|j|j d|now|]; simpl; intros [= <-];
    (split; [|done]).
  - apply others_remove.
  - apply others_map; auto using startStopOne_id, startStopOne_other.
  - apply others_map; auto using lapOne_id, lapOne_other.
  - apply others_map; auto using resetOne_id, resetOne_other.
  - apply others_map; auto using updateOne_id, updateOne_other.
Qed.

Lemma per_athlete_command_frame_witness :
  others 0 (athletes (step (CReset 0) twoRunners))
  = others 0 (athletes twoRunners)
  ∧ nextId (step (CReset 0) twoRunners) = nextId twoRunners.
Proof.
  apply (per_athlete_command_frame (CReset 0) 0 twoRunners). reflexivity.
Defined.

(* ===================================================================== *)
(** ** Invariants of the reachable states *)
(* ===================================================================== *)

Lemma Forall_map_elem {A} (P : A → Prop) (f : A → A) (l : list A) :
  (∀ a, a ∈ l → P a → P (f a)) → Forall P l → Forall P (map f l).
Proof.
  intros Hf Hl. apply List.Forall_map.
  rewrite Forall_forall in *. auto.
Qed.

Lemma Forall_List_filter {A} (P : A → Prop) (p : A → bool) (l : list A) :
  Forall P l → Forall P (List.filter p l).
Proof.
  rewrite !Forall_forall. intros Hl a Ha.
  apply list_elem_of_In, List.filter_In in Ha as [Ha _].
  by apply Hl, list_elem_of_In.
Qed.

Section Invariant.
(** [P] is a property of one athlete and [ok] the guard on commands. *)
Variable P : Athlete → Prop.
Variable ok : App → Command → Prop.

Hypothesis P_new : ∀ s f, ok s (CAdd f) → P (newAthlete (nextId s) f).
Hypothesis P_lap :
  ∀ a now t, P a → P (with_laps a (calculateNextLap now a t)).
Hypothesis P_run : ∀ a r st, P a → P (with_run a r st).
Hypothesis P_time : ∀ a t, P a → P (with_time a t).
Hypothesis P_clear : ∀ a, P a → P (with_laps a []).
Hypothesis P_edit :
  ∀ s i d a, ok s (CEdit i d) → a ∈ athletes s → id a = i →
             P a → P (updateOne i d a).
Hypothesis P_reload : ∀ a, P a → P (reloadAthlete a).

Lemma step_invariant (s : App) (c : Command) :
  ok s c → Forall P (athletes s) → Forall P (athletes (step c s)).
Proof using All.
  intros Hok Hs.
  destruct c as [f|j|j now|j now|j|j d|now|]; simpl.
  - unfold handleAddAthlete. case_bool_decide; [done|]. simpl.
    apply Forall_app. split; [done|]. repeat constructor. by apply P_new.
  - by apply Forall_List_filter.
  - apply Forall_map_elem; [|done]. intros a _ Ha. unfold startStopOne.
    destruct (id a =? j), (isRunning a); auto.
  - apply Forall_map_elem; [|done]. intros a _ Ha. unfold lapOne.
    destruct (_ && _); auto.
  - apply Forall_map_elem; [|done]. intros a _ Ha. unfold resetOne.
    destruct (id a =? j); auto.
  - apply Forall_map_elem; [|done]. intros a Hin Ha.
    destruct (decide (id a = j)) as [E|N]; [by eapply P_edit|].
    by rewrite updateOne_other.
  - apply Forall_map_elem; [|done]. intros a _ Ha. unfold tickOne.
    destruct (startTime a) as [st|]; [|done].
    destruct (_ && _); auto.
  - apply Forall_fmap. eapply Forall_impl; [done|]. intros a. apply P_reload.
Qed.

Lemma reachable_invariant (s : App) :
  reachable ok s → Forall P (athletes s).
Proof using All.
  induction 1 as [|s c Hs IH Hok]; [constructor|].
  by apply step_invariant.
Qed.
End Invariant.

Lemma reachable_run (ok : App → Command → Prop) (cs : list Command) (s : App) :
  reachable ok s →
  (∀ pre c post, cs = pre ++ c :: post → ok (run pre s) c) →
  reachable ok (run cs s).
Proof.
  revert s. induction cs as [|c cs IH]; intros s Hs Hok; [done|].
  simpl. apply IH.
  - apply reach_step; [done|]. apply (Hok [] c cs). done.
  - intros pre c' post ->. apply (Hok (c :: pre) c' post). done.
Qed.

Lemma reachable_run_any (cs : list Command) :
  reachable any_command (run cs initialApp).
Proof. apply reachable_run; [constructor|done]. Qed.

Lemma reloadLap_id (l : Lap) : reloadLap l = l.
Proof.
  destruct l as [n t d ts]. unfold reloadLap, num_or. simpl.
  destruct (Z.eqb_spec ts 0) as [->|]; done.
Qed.

Lemma reloadAthlete_laps (a : Athlete) : laps (reloadAthlete a) = laps a.
Proof.
  simpl. rewrite <-(list_fmap_id (laps a)) at 2.
  apply list_fmap_ext. intros i l _. apply reloadLap_id.
Qed.

(** *** Lap numbers *)

Lemma numbered_snoc (a : Athlete) (t d now : Z) :
  numbered a →
  numbered (with_laps a (laps a ++ [mkLap (Z.of_nat (length (laps a)) + 1)
                                         t d now])).
Proof.
  intros Ha i l. simpl. intros Hl.
  apply lookup_app_Some in Hl as [Hl|[Hge Hl]]; [by apply Ha|].
  apply list_lookup_singleton_Some in Hl as [Hi <-]. simpl. lia.
Qed.

Lemma numbered_next (a : Athlete) (now t : Z) :
  numbered a → numbered (with_laps a (calculateNextLap now a t)).
Proof.
  intros Ha.
  destruct (calculateNextLap_cases now t a) as [(_ & _ & ->)|[_ ->]].
  - exact Ha.
  - by apply numbered_snoc.
Qed.

(** C4.  In every state reachable by any sequence of add, remove,
    start/stop (with the closing lap a stop records), lap, reset, edit,
    refresh and reload commands, every athlete's lap at index [i] has
    [lapNumber = i + 1]: the lap numbers are [1 .. laps.length] without
    gaps. *)
Theorem lap_numbers_are_positions (s : App) (a : Athlete) :
  reachable any_command s → a ∈ athletes s →
  (∀ (i : nat) (l : Lap), laps a !! i = Some l → lapNumber l = Z.of_nat i + 1)
  ∧ (lapNumber <$> laps a)
    = (fun i : nat => Z.of_nat i + 1) <$> seq 0 (length (laps a)).
Proof.
  intros Hs Ha.
  assert (numbered a) as Hnum.
  { revert a Ha. apply Forall_forall.
    apply (reachable_invariant numbered any_command); try done.
    - intros a now t. apply numbered_next.
    - intros s0 j d b _ _ _ Ha. unfold updateOne.
      destruct (_ =? _); exact Ha.
    - intros a Ha. unfold numbered. by rewrite reloadAthlete_laps. }
  split; [exact Hnum|].
  apply list_eq. intros i. rewrite !list_lookup_fmap.
  destruct (laps a !! i) as [l|] eqn:E; simpl.
  - rewrite (Hnum i l E).
    apply lookup_lt_Some in E as Hlt.
    by rewrite lookup_seq_lt.
  - apply lookup_ge_None in E.
    by rewrite lookup_seq_ge.
Qed.

Lemma sessionFullRace_result :
  athletes (run sessionFullRace initialApp)
  = [adaWith 1000 false None 200000
       [mkLap 1 60000 400 61000; mkLap 2 130000 800 131000;
        mkLap 3 200000 1000 201000]].
Proof. vm_compute. reflexivity. Qed.

Lemma lap_numbers_are_positions_witness :
  let a := adaWith 1000 false None 200000
             [mkLap 1 60000 400 61000; mkLap 2 130000 800 131000;
              mkLap 3 200000 1000 201000] in
  (∀ (i : nat) (l : Lap), laps a !! i = Some l → lapNumber l = Z.of_nat i + 1)
  ∧ (lapNumber <$> laps a)
    = (fun i : nat => Z.of_nat i + 1) <$> seq 0 (length (laps a)).
Proof.
  apply (lap_numbers_are_positions (run sessionFullRace initialApp)).
  - apply reachable_run_any.
  - rewrite sessionFullRace_result. apply list_elem_of_here.
Defined.

(** Reachability of the state at the end of a concrete session: one
    [reach_step] for each command, the guard checked where it is issued. *)
Ltac reach_session :=
  cbv [run foldl app sessionRaiseTarget sessionSimpleFirst sessionOneLap
       sessionNegativeLapDistance];
  repeat (apply reach_step; [|try exact I]);
  try apply reach_init.

(** *** Distances *)

Lemma sessionShrinkTarget_result :
  athletes (run sessionShrinkTarget initialApp)
  = [adaWith 300 true (Some 1000) 60000 [mkLap 1 60000 400 61000]].
Proof. vm_compute. reflexivity. Qed.

Lemma sessionToSimpleMode_result :
  athletes (run sessionToSimpleMode initialApp)
  = [adaWith 0 true (Some 1000) 60000 [mkLap 1 60000 400 61000]].
Proof. vm_compute. reflexivity. Qed.

Lemma sessionSimpleModeLap_result :
  athletes (run sessionSimpleModeLap initialApp)
  = [adaWith 0 true (Some 1000) 130000
       [mkLap 1 60000 400 61000; mkLap 2 130000 0 131000]].
Proof. vm_compute. reflexivity. Qed.

(** An edit that lowers the target below a recorded distance leaves that
    lap beyond the target. *)
Lemma shrunk_target_exceeded :
  ¬ within_target (adaWith 300 true (Some 1000) 60000
                     [mkLap 1 60000 400 61000]).
Proof.
  intros H.
  specialize (H ltac:(reflexivity) (mkLap 1 60000 400 61000)
                (list_elem_of_here _ _)).
  simpl in H. lia.
Qed.

(** A lap recorded after an edit to simple mode has distance 0, below the
    distance of the lap before it. *)
Lemma simple_mode_lap_decreases :
  ¬ nondecreasing_distance
      (adaWith 0 true (Some 1000) 130000
         [mkLap 1 60000 400 61000; mkLap 2 130000 0 131000]).
Proof.
  intros H.
  specialize (H 0%nat (mkLap 1 60000 400 61000) (mkLap 2 130000 0 131000)
                eq_refl eq_refl).
  simpl in H. lia.
Qed.

(** Without any edit, a negative lap distance typed into the add form
    makes the distances decrease. *)
Lemma sessionNegativeLapDistance_result :
  athletes (run sessionNegativeLapDistance initialApp)
  = [negativeRunner].
Proof. vm_compute. reflexivity. Qed.

Lemma sessionNegativeLapDistance_reachable :
  reachable no_edit (run sessionNegativeLapDistance initialApp).
Proof. reach_session. Qed.

Lemma negative_lap_distance_decreases :
  ¬ (∀ (s : App) (a : Athlete),
       reachable no_edit s → a ∈ athletes s → nondecreasing_distance a).
Proof.
  intros H.
  specialize (H _ negativeRunner sessionNegativeLapDistance_reachable).
  rewrite sessionNegativeLapDistance_result in H.
  specialize (H (list_elem_of_here _ _) 0%nat _ _ eq_refl eq_refl).
  simpl in H. lia.
Qed.

(** C2, as stated, fails: with an edit among the commands, a reachable
    athlete in distance mode holds a lap beyond its target (and another
    reachable athlete has a decreasing distance sequence). *)
Lemma edit_breaks_distance_bounds :
  ¬ (∀ (s : App) (a : Athlete),
       reachable any_command s → a ∈ athletes s →
       nondecreasing_distance a ∧ within_target a)
  ∧ ¬ (∀ (s : App) (a : Athlete),
         reachable any_command s → a ∈ athletes s →
         nondecreasing_distance a).
Proof.
  split; intros H.
  - apply shrunk_target_exceeded.
    apply (H (run sessionShrinkTarget initialApp)).
    + apply reachable_run_any.
    + rewrite sessionShrinkTarget_result. apply list_elem_of_here.
  - apply simple_mode_lap_decreases.
    apply (H (run sessionSimpleModeLap initialApp)).
    + apply reachable_run_any.
    + rewrite sessionSimpleModeLap_result. apply list_elem_of_here.
Qed.

(** C3, as stated, fails: after an edit to simple mode the lap recorded in
    distance mode keeps its distance. *)
Lemma edit_to_simple_mode_keeps_distances :
  ¬ (∀ (s : App) (a : Athlete),
       reachable any_command s → a ∈ athletes s →
       targetDistance a = 0 →
       ∀ l : Lap, l ∈ laps a → totalDistance l = 0).
Proof.
  intros H.
  specialize (H (run sessionToSimpleMode initialApp)
                (adaWith 0 true (Some 1000) 60000 [mkLap 1 60000 400 61000])
                (reachable_run_any _)).
  rewrite sessionToSimpleMode_result in H.
  specialize (H (list_elem_of_here _ _) eq_refl
                (mkLap 1 60000 400 61000) (list_elem_of_here _ _)).
  discriminate H.
Qed.

Lemma lastLapDistanceOf_cases (a : Athlete) :
  (laps a = [] ∧ lastLapDistanceOf a = 0)
  ∨ (∃ l, laps a !! (length (laps a) - 1)%nat = Some l
          ∧ (0 < length (laps a))%nat
          ∧ lastLapDistanceOf a = totalDistance l).
Proof.
  unfold lastLapDistanceOf, lastLapOf.
  destruct (laps a) as [|x ls] eqn:E; [by left|right].
  assert (is_Some ((x :: ls) !! (length (x :: ls) - 1)%nat)) as [l Hl].
  { apply lookup_lt_is_Some. simpl. lia. }
  exists l. change (0 <? length (x :: ls))%nat with true. cbv iota.
  rewrite Hl. split; [done|]. split; [simpl; lia|done].
Qed.

Lemma nextDistance_bounds (a : Athlete) :
  distance_inv a →
  ¬ (0 < targetDistance a ∧ targetDistance a ≤ lastLapDistanceOf a) →
  lastLapDistanceOf a ≤ nextDistance a
  ∧ nextDistance a ≤ Z.max 0 (targetDistance a).
Proof.
  intros (_ & Hmax & Hld) Hopen.
  assert (lastLapDistanceOf a ≤ Z.max 0 (targetDistance a)) as Hlast.
  { destruct (lastLapDistanceOf_cases a) as [[_ ->]|(l & Hl & _ & ->)]; [lia|].
    apply Hmax. by eapply list_elem_of_lookup_2. }
  unfold nextDistance.
  destruct (Z.ltb_spec 0 (targetDistance a)); [|lia].
  destruct (Z.ltb_spec (lastLapDistanceOf a) (targetDistance a)); simpl;
    [|lia].
  destruct (Z.leb_spec (targetDistance a)
              (lastLapDistanceOf a + lapDistance a)); lia.
Qed.

Lemma distance_inv_next (a : Athlete) (now t : Z) :
  distance_inv a → distance_inv (with_laps a (calculateNextLap now a t)).
Proof.
  intros Ha.
  destruct (calculateNextLap_cases now t a) as [(_ & _ & ->)|[Hopen ->]];
    [exact Ha|].
  destruct (nextDistance_bounds a Ha Hopen) as [Hge Hle].
  destruct Ha as (Hord & Hmax & Hld).
  split; [|split]; simpl; [| |done].
  - intros i x y Hx Hy. simpl in Hx, Hy.
    apply lookup_app_Some in Hy as [Hy|[Hlen Hy]].
    + apply lookup_lt_Some in Hy as Hlt.
      rewrite lookup_app_l in Hx by lia. by eapply Hord.
    + apply list_lookup_singleton_Some in Hy as [Hi <-]. simpl.
      rewrite lookup_app_l in Hx by lia.
      destruct (lastLapDistanceOf_cases a) as [[E _]|(l & Hl & Hpos & El)].
      * by rewrite E in Hx.
      * replace (length (laps a) - 1)%nat with i in Hl by lia.
        rewrite Hx in Hl. injection Hl as ->. lia.
  - intros l Hl. apply elem_of_app in Hl as [Hl|Hl]; [by apply Hmax|].
    apply list_elem_of_singleton in Hl as ->. simpl. lia.
Qed.

Lemma distance_inv_reachable (s : App) :
  reachable distance_consistent s → Forall distance_inv (athletes s).
Proof.
  apply reachable_invariant; try done.
  - intros s0 f Hok. simpl in Hok.
    split; [|split]; simpl; [|intros l Hl; by apply elem_of_nil in Hl|done].
    intros i x y Hx. simpl in Hx. by rewrite lookup_nil in Hx.
  - intros a now t. apply distance_inv_next.
  - intros a (_ & _ & Hld).
    split; [|split]; simpl; [|intros l Hl; by apply elem_of_nil in Hl|done].
    intros i x y Hx. simpl in Hx. by rewrite lookup_nil in Hx.
  - intros s0 i d a [Hld Hmax] Hin Hid (Hord & _ & _).
    unfold updateOne. rewrite <-Hid, Z.eqb_refl.
    split; [|split]; simpl; [done| |done].
    by apply Hmax.
  - intros a (Hord & Hmax & Hld).
    split; [|split].
    + unfold nondecreasing_distance. by rewrite reloadAthlete_laps.
    + by rewrite reloadAthlete_laps.
    + simpl. unfold num_or. destruct (_ =? _); lia.
Qed.

(** C2, amended.  In every state reachable by add, remove, start/stop, lap,
    reset, edit, refresh and reload commands in which every lap distance
    supplied by an add or an edit is non-negative and no edit sets the
    target below a distance already recorded for the edited athlete, the
    lap distances of every athlete are non-decreasing and, in distance
    mode, none is beyond the target. *)
Theorem distances_ordered_and_bounded (s : App) (a : Athlete) :
  reachable distance_consistent s → a ∈ athletes s →
  (∀ (i : nat) (x y : Lap),
     laps a !! i = Some x → laps a !! S i = Some y →
     totalDistance x ≤ totalDistance y)
  ∧ (0 < targetDistance a →
     ∀ l : Lap, l ∈ laps a → totalDistance l ≤ targetDistance a).
Proof.
  intros Hs Ha.
  apply distance_inv_reachable in Hs.
  rewrite Forall_forall in Hs. destruct (Hs a Ha) as (Hord & Hmax & _).
  split; [exact Hord|].
  intros Hpos l Hl. specialize (Hmax l Hl). lia.
Qed.

Lemma sessionRaiseTarget_reachable :
  reachable distance_consistent (run sessionRaiseTarget initialApp).
Proof.
  reach_session.
  - vm_compute. discriminate.
  - split; [vm_compute; discriminate|].
    intros a Ha _ l Hl. vm_compute in Ha.
    apply list_elem_of_singleton in Ha as ->.
    apply list_elem_of_singleton in Hl as ->.
    vm_compute. discriminate.
Qed.

Lemma sessionRaiseTarget_result :
  athletes (run sessionRaiseTarget initialApp)
  = [adaWith 1600 true (Some 1000) 130000
       [mkLap 1 60000 400 61000; mkLap 2 130000 800 131000]].
Proof. vm_compute. reflexivity. Qed.

Lemma distances_ordered_and_bounded_witness :
  let a := adaWith 1600 true (Some 1000) 130000
             [mkLap 1 60000 400 61000; mkLap 2 130000 800 131000] in
  (∀ (i : nat) (x y : Lap),
     laps a !! i = Some x → laps a !! S i = Some y →
     totalDistance x ≤ totalDistance y)
  ∧ (0 < targetDistance a →
     ∀ l : Lap, l ∈ laps a → totalDistance l ≤ targetDistance a).
Proof.
  apply (distances_ordered_and_bounded (run sessionRaiseTarget initialApp)).
  - exact sessionRaiseTarget_reachable.
  - rewrite sessionRaiseTarget_result. apply list_elem_of_here.
Defined.

(** *** Simple mode *)

Lemma simple_mode_zero_next (a : Athlete) (now t : Z) :
  simple_mode_zero a →
  simple_mode_zero (with_laps a (calculateNextLap now a t)).
Proof.
  intros Ha.
  destruct (calculateNextLap_cases now t a) as [(_ & _ & ->)|[_ ->]];
    [exact Ha|].
  intros Hz l Hl. simpl in Hz, Hl.
  apply elem_of_app in Hl as [Hl|Hl]; [by apply Ha|].
  apply list_elem_of_singleton in Hl as ->. simpl.
  unfold nextDistance. by rewrite Hz.
Qed.

Lemma simple_mode_zero_reachable (s : App) :
  reachable simple_mode_consistent s → Forall simple_mode_zero (athletes s).
Proof.
  apply reachable_invariant; try done.
  - intros s0 f _ _ l Hl. by apply elem_of_nil in Hl.
  - intros a now t. apply simple_mode_zero_next.
  - intros a _ _ l Hl. by apply elem_of_nil in Hl.
  - intros s0 i d a Hok Hin Hid _ Hz l Hl.
    unfold updateOne in Hz, Hl. rewrite <-Hid, Z.eqb_refl in Hz, Hl.
    simpl in Hz, Hl. by eapply Hok.
  - intros a Ha Hz l Hl. rewrite reloadAthlete_laps in Hl. by apply Ha.
Qed.

(** C3, amended.  In every state reachable by add, remove, start/stop, lap,
    reset, edit, refresh and reload commands in which no edit sets
    [targetDistance] to 0 while the edited athlete holds a lap with a
    non-zero distance, every lap of an athlete in simple mode has
    [totalDistance = 0]. *)
Theorem simple_mode_laps_have_no_distance (s : App) (a : Athlete) :
  reachable simple_mode_consistent s → a ∈ athletes s →
  targetDistance a = 0 →
  ∀ l : Lap, l ∈ laps a → totalDistance l = 0.
Proof.
  intros Hs Ha.
  apply simple_mode_zero_reachable in Hs.
  rewrite Forall_forall in Hs. exact (Hs a Ha).
Qed.

Lemma sessionSimpleFirst_reachable :
  reachable simple_mode_consistent (run sessionSimpleFirst initialApp).
Proof.
  reach_session.
  intros _ a Ha _ l Hl. vm_compute in Ha.
  apply list_elem_of_singleton in Ha as ->.
  apply list_elem_of_singleton in Hl as ->.
  reflexivity.
Qed.

Lemma sessionSimpleFirst_result :
  athletes (run sessionSimpleFirst initialApp)
  = [adaWith 0 true (Some 1000) 130000
       [mkLap 1 60000 0 61000; mkLap 2 130000 0 131000]].
Proof. vm_compute. reflexivity. Qed.

Lemma simple_mode_laps_have_no_distance_witness :
  Forall (fun l : Lap => totalDistance l = 0)
         [mkLap 1 60000 0 61000; mkLap 2 130000 0 131000].
Proof.
  apply Forall_forall.
  apply (simple_mode_laps_have_no_distance
           (run sessionSimpleFirst initialApp)
           (adaWith 0 true (Some 1000) 130000
              [mkLap 1 60000 0 61000; mkLap 2 130000 0 131000])).
  - exact sessionSimpleFirst_reachable.
  - rewrite sessionSimpleFirst_result. apply list_elem_of_here.
  - reflexivity.
Defined.

(* ===================================================================== *)
(** ** Export *)
(* ===================================================================== *)

Lemma findIndexFrom_at (x : LapObj) (pre suf : list LapObj) (k : Z) :
  ref x ∉ ref <$> pre →
  findIndexFrom (fun l => same_object l x) k (pre ++ x :: suf)
  = k + Z.of_nat (length pre).
Proof.
  revert k. induction pre as [|p pre IH]; intros k Hfresh; simpl.
  - unfold same_object. rewrite bool_decide_eq_true_2 by done. lia.
  - rewrite fmap_cons in Hfresh. apply not_elem_of_cons in Hfresh as [Hp Hpre].
    unfold same_object at 1. rewrite bool_decide_eq_false_2 by done.
    rewrite IH by done. lia.
Qed.

Lemma exportRow_at (x : LapObj) (pre suf : list LapObj) :
  ref x ∉ ref <$> pre →
  exportRow (pre ++ x :: suf) x
  = Some (rowOf (obj x, totalTime (obj x) - prevTotalTime pre)).
Proof.
  intros Hfresh. unfold exportRow, findIndex.
  rewrite findIndexFrom_at by done. rewrite Z.add_0_l.
  unfold prevTotalTime, rowOf.
  destruct pre as [|p pre _] using rev_ind; simpl.
  - by rewrite Z.sub_0_r.
  - rewrite last_snoc, length_app. simpl.
    assert ((0 <? Z.of_nat (length pre + 1)) = true) as ->
      by (apply Z.ltb_lt; lia).
    replace (Z.to_nat (Z.of_nat (length pre + 1) - 1)) with (length pre)
      by lia.
    rewrite <-app_assoc. simpl.
    by rewrite list_lookup_middle.
Qed.

Lemma prevTotalTime_snoc (pre : list LapObj) (x : LapObj) :
  prevTotalTime (pre ++ [x]) = totalTime (obj x).
Proof. unfold prevTotalTime. by rewrite last_snoc. Qed.

Lemma exportRows_from (start : Z) (end_ : option Z) (suf pre : list LapObj) :
  NoDup (ref <$> (pre ++ suf)) →
  mapM (exportRow (pre ++ suf))
       (List.filter (fun lap => inRange start end_ (obj lap)) suf)
  = Some (rowOf <$> List.filter (fun p => inRange start end_ p.1)
                      (withDeltas (prevTotalTime pre) (obj <$> suf))).
Proof.
  revert pre. induction suf as [|x suf IH]; intros pre Hnd; [done|].
  assert (ref x ∉ ref <$> pre) as Hfresh.
  { rewrite fmap_app, fmap_cons in Hnd.
    apply NoDup_app in Hnd as (_ & Hdisj & _).
    intros Hin. apply (Hdisj _ Hin). apply list_elem_of_here. }
  specialize (IH (pre ++ [x])).
  rewrite <-app_assoc, prevTotalTime_snoc in IH. simpl in IH.
  specialize (IH Hnd).
  simpl. destruct (inRange start end_ (obj x)); simpl.
  - rewrite exportRow_at by done. simpl. by rewrite IH.
  - exact IH.
Qed.

(** On distinct lap objects the rows are those of the laps in range, each
    with the delta from its predecessor in the whole lap array. *)
Lemma exportRows_distinct (start : Z) (end_ : option Z)
  (allLaps : list LapObj) :
  NoDup (ref <$> allLaps) →
  exportRows start end_ allLaps
  = Some (rowOf <$> List.filter (fun p => inRange start end_ p.1)
                      (withDeltas 0 (obj <$> allLaps))).
Proof. intros Hnd. apply (exportRows_from start end_ allLaps []). done. Qed.

Lemma imap_mkLapObj_ref (k : nat) (ls : list Lap) :
  ref <$> imap (fun i => mkLapObj (k + i)) ls = seq k (length ls).
Proof.
  revert k. induction ls as [|l ls IH]; intros k; [done|].
  simpl. rewrite Nat.add_0_r. f_equal.
  rewrite <-(IH (S k)). f_equal. apply imap_ext. intros i y _. simpl.
  f_equal. lia.
Qed.

Lemma imap_mkLapObj_obj (f : nat → nat) (ls : list Lap) :
  obj <$> imap (fun i => mkLapObj (f i)) ls = ls.
Proof.
  revert f. induction ls as [|l ls IH]; intros f; [done|].
  simpl. f_equal. apply (IH (f ∘ S)).
Qed.

Lemma heapLaps_obj (a : Athlete) : obj <$> heapLaps a = laps a.
Proof. apply (imap_mkLapObj_obj (fun i => i)). Qed.

Lemma heapLaps_distinct (a : Athlete) : NoDup (ref <$> heapLaps a).
Proof.
  unfold heapLaps. rewrite (imap_mkLapObj_ref 0). apply NoDup_seq.
Qed.

Lemma exportRows_heapLaps
  (start : Z) (end_ : option Z) (a : Athlete) :
  exportRows start end_ (heapLaps a)
  = Some (rowOf <$> List.filter (fun p => inRange start end_ p.1)
                      (withDeltas 0 (laps a))).
Proof.
  rewrite <-(heapLaps_obj a).
  apply exportRows_distinct, heapLaps_distinct.
Qed.

(** C1, as stated, fails: with the first of two laps before the start of
    the range, the only exported row shows 70000, the delta from the lap
    left out, and not the lap's own total time 130000. *)
Lemma export_lap_time_not_from_filtered_set :
  exportRows 100000 None (heapLaps twoLapRunner)
  = Some [mkRow 2 800 70000 130000 131000]
  ∧ specLapTimes 100000 None (laps twoLapRunner) = [130000]
  ∧ exportedLapTimes 100000 None twoLapRunner
    ≠ Some (specLapTimes 100000 None (laps twoLapRunner)).
Proof.
  split; [vm_compute; reflexivity|].
  split; [vm_compute; reflexivity|].
  vm_compute. discriminate.
Qed.


Lemma withDeltas_lookup (prev : Z) (ls : list Lap) (i : nat) (l : Lap) :
  ls !! i = Some l →
  withDeltas prev ls !! i
  = Some (l, totalTime l - match i with
                           | O => prev
                           | S j => default 0 (totalTime <$> ls !! j)
                           end).
Proof.
  revert prev i. induction ls as [|x ls IH]; intros prev i Hl; [done|].
  destruct i as [|i]; simpl in *.
  - by injection Hl as ->.
  - rewrite (IH _ _ Hl). destruct i as [|i]; [done|]. done.
Qed.

Lemma withDeltas_specDeltas (prev : Z) (ls : list Lap) :
  map r_lapTime (rowOf <$> withDeltas prev ls) = specDeltas prev ls.
Proof.
  revert prev. induction ls as [|x ls IH]; intros prev; [done|].
  simpl. by rewrite IH.
Qed.

Lemma filter_all_fst (p : Lap → bool) (prev : Z) (ls : list Lap) :
  Forall (fun l => p l = true) ls →
  List.filter (fun q => p q.1) (withDeltas prev ls) = withDeltas prev ls
  ∧ List.filter p ls = ls.
Proof.
  revert prev. induction ls as [|x ls IH]; intros prev Hall; [done|].
  apply Forall_cons in Hall as [Hx Hall]. simpl. rewrite Hx.
  destruct (IH (totalTime x) Hall) as [-> ->]. done.
Qed.

(** With every lap of the athlete in range, the export does write the
    deltas within the filtered list. *)
Lemma export_follows_spec_on_full_range
  (start : Z) (end_ : option Z) (a : Athlete) :
  Forall (fun l => inRange start end_ l = true) (laps a) →
  exportedLapTimes start end_ a = Some (specLapTimes start end_ (laps a)).
Proof.
  intros Hall. unfold exportedLapTimes, specLapTimes.
  rewrite exportRows_heapLaps.
  destruct (filter_all_fst (inRange start end_) 0 (laps a) Hall) as [-> ->].
  by rewrite withDeltas_specDeltas.
Qed.

(** C1, amended.  For every athlete and every date range, the export
    writes one row for each lap in range, and the "Lap Time" of a row is the
    lap's [totalTime] minus the [totalTime] of the lap before it in the
    athlete's whole lap array, in range or not; it is the lap's own
    [totalTime] only for the athlete's first lap. *)
Theorem export_lap_time_from_previous_lap
  (start : Z) (end_ : option Z) (a : Athlete) :
  exportRows start end_ (heapLaps a)
  = Some (rowOf <$> List.filter (fun p => inRange start end_ p.1)
                      (withDeltas 0 (laps a)))
  ∧ ∀ (i : nat) (l : Lap),
      laps a !! i = Some l →
      withDeltas 0 (laps a) !! i
      = Some (l, totalTime l - match i with
                               | O => 0
                               | S j => default 0 (totalTime <$> laps a !! j)
                               end).
Proof.
  split; [apply exportRows_heapLaps|].
  intros i l. apply withDeltas_lookup.
Qed.

Lemma export_lap_time_from_previous_lap_witness :
  exportRows 100000 None (heapLaps twoLapRunner)
  = Some [mkRow 2 800 70000 130000 131000]
  ∧ withDeltas 0 (laps twoLapRunner) !! 1%nat
    = Some (mkLap 2 130000 800 131000, 70000).
Proof.
  destruct (export_lap_time_from_previous_lap 100000 None twoLapRunner)
    as [Hrows Hdelta].
  split.
  - rewrite Hrows. reflexivity.
  - rewrite (Hdelta 1%nat (mkLap 2 130000 800 131000) eq_refl). reflexivity.
Defined.

(* ===================================================================== *)
(** ** Persistence *)
(* ===================================================================== *)

(** Two objects built by inserts are equal when they agree on every key;
    the keys are literals, so each comparison is decided. *)
Ltac map_by_keys :=
  apply map_eq; intros ?;
  repeat (rewrite lookup_insert; case_decide; [done|]);
  rewrite ?lookup_insert_ne by done; reflexivity.

#[local] Arguments js_or : simpl never.
#[local] Arguments normalizeLap : simpl never.
#[local] Arguments normalizeAthlete : simpl never.
#[local] Arguments lapToJSON : simpl never.
#[local] Arguments athleteToJSON : simpl never.
#[local] Arguments reloadAthlete : simpl never.
#[local] Arguments reloadLap : simpl never.

Lemma js_or_num (n d : Z) :
  js_or (Some (JNum n)) (JNum d) = JNum (num_or n d).
Proof. unfold js_or, num_or, truthy. by destruct (n =? 0). Qed.

Lemma normalizeLap_saved (l : Lap) :
  normalizeLap (lapToJSON l) = Some (lapToJSON (reloadLap l)).
Proof.
  unfold normalizeLap, lapToJSON. simpl.
  rewrite !lookup_insert_ne by done. rewrite lookup_insert_eq. simpl.
  rewrite js_or_num.
  apply (f_equal Some), (f_equal JObj).
  map_by_keys.
Qed.

Lemma mapM_fmap_total {A B C} (f : B → option C) (g : A → B) (h : A → C)
  (l : list A) :
  (∀ x, f (g x) = Some (h x)) → mapM f (g <$> l) = Some (h <$> l).
Proof.
  intros Hf. apply mapM_Some_2, Forall2_fmap, Forall_Forall2_diag.
  apply Forall_forall. intros x _. apply Hf.
Qed.

Lemma mapM_normalizeLap_saved (ls : list Lap) :
  mapM normalizeLap (lapToJSON <$> ls) = Some (lapToJSON <$> (reloadLap <$> ls)).
Proof.
  rewrite <-list_fmap_compose.
  apply mapM_fmap_total. intros l. apply normalizeLap_saved.
Qed.

Lemma normalizeAthlete_saved (a : Athlete) :
  normalizeAthlete (athleteToJSON a) = Some (athleteToJSON (reloadAthlete a)).
Proof.
  unfold normalizeAthlete, athleteToJSON. simpl.
  rewrite !lookup_insert_ne by done. rewrite lookup_insert_eq. simpl.
  rewrite !lookup_insert_ne by done. rewrite lookup_insert_eq. simpl.
  rewrite mapM_normalizeLap_saved. simpl.
  rewrite js_or_num.
  apply (f_equal Some), (f_equal JObj).
  map_by_keys.
Qed.

Lemma load_save (l : list Athlete) :
  load (save l) = athleteToJSON <$> (reloadAthlete <$> l).
Proof.
  unfold load, save.
  assert (mapM normalizeAthlete (athleteToJSON <$> l)
          = Some (athleteToJSON <$> (reloadAthlete <$> l))) as ->; [|done].
  rewrite <-list_fmap_compose.
  apply mapM_fmap_total. intros a. apply normalizeAthlete_saved.
Qed.

Lemma athleteToJSON_fields (a : Athlete) :
  ∃ o : gmap string JsVal,
    athleteToJSON a = JObj o
    ∧ o !! "isRunning" = Some (JBool (isRunning a))
    ∧ o !! "startTime" = Some (startTimeToJSON (startTime a))
    ∧ o !! "time" = Some (JNum (time a))
    ∧ o !! "laps" = Some (JArr (lapToJSON <$> laps a))
    ∧ o !! "lapDistance" = Some (JNum (lapDistance a)).
Proof.
  eexists. split; [reflexivity|].
  repeat split; rewrite !lookup_insert_ne by done; by rewrite lookup_insert_eq.
Qed.

Lemma stringifyAthlete_finite (a : Athlete) :
  stringifyAthlete (athleteValue a) = athleteToJSON a.
Proof.
  unfold stringifyAthlete, athleteFields, athleteToJSON. simpl.
  rewrite <-list_fmap_compose. by destruct (startTime a).
Qed.

Lemma saveValues_finite (l : list Athlete) :
  saveValues (athleteValue <$> l) = save l.
Proof.
  unfold saveValues, save. rewrite <-list_fmap_compose.
  do 2 f_equal. apply list_fmap_ext. intros i a _.
  apply stringifyAthlete_finite.
Qed.

Lemma normalizeLap_stringify (l : LapValue) :
  normalizeLap (stringifyLap l) = Some (loadedLap l).
Proof.
  unfold normalizeLap, stringifyLap, loadedLap, lapFields. simpl.
  rewrite !lookup_insert_ne by done. by rewrite lookup_insert_eq.
Qed.

Lemma normalizeAthlete_stringify (x : AthleteValue) :
  normalizeAthlete (stringifyAthlete x) = Some (loadedAthlete x).
Proof.
  unfold normalizeAthlete, stringifyAthlete, loadedAthlete, athleteFields.
  simpl.
  rewrite !lookup_insert_ne by done. rewrite lookup_insert_eq. simpl.
  rewrite !lookup_insert_ne by done. rewrite lookup_insert_eq. simpl.
  change (js_or (Some (JArr (stringifyLap <$> av_laps x))) (JArr []))
    with (JArr (stringifyLap <$> av_laps x)). simpl.
  rewrite (mapM_fmap_total normalizeLap stringifyLap loadedLap)
    by apply normalizeLap_stringify.
  done.
Qed.

Lemma load_saveValues (l : list AthleteValue) :
  load (saveValues l) = loadedAthlete <$> l.
Proof.
  unfold load, saveValues.
  rewrite (mapM_fmap_total normalizeAthlete stringifyAthlete loadedAthlete)
    by apply normalizeAthlete_stringify.
  done.
Qed.







(** On the records of the state machine, whose numbers are finite, the
    save and the load are those of the values. *)
Lemma load_save_values (l : list Athlete) :
  load (save l) = loadedAthlete <$> (athleteValue <$> l).
Proof. by rewrite <-saveValues_finite, load_saveValues. Qed.

Lemma normalizeAthlete_without_lapDistance (o : gmap string JsVal) :
  o !! "lapDistance" = Some (JNum 0) →
  normalizeAthlete (JObj o) = normalizeAthlete (JObj (delete "lapDistance" o)).
Proof.
  intros Hld. unfold normalizeAthlete. simpl.
  rewrite Hld, lookup_delete_eq, lookup_delete_ne by done. simpl.
  destruct (asArray (js_or (o !! "laps") (JArr []))) as [lapsArr|];
    simpl; [|done].
  destruct (mapM normalizeLap lapsArr) as [newLaps|]; simpl; [|done].
  apply (f_equal Some), (f_equal JObj).
  apply map_eq. intros k.
  repeat (rewrite lookup_insert; symmetry; rewrite lookup_insert;
          case_decide; [done|]).
  by rewrite lookup_delete_ne.
Qed.

(** C10.  A persisted athlete object whose [lapDistance] is the number 0 is
    normalized exactly as the same object without the field, and whenever
    the normalization yields an athlete, its [lapDistance] is 400. *)
Theorem stored_zero_lapDistance_loads_as_400 (o : gmap string JsVal) :
  o !! "lapDistance" = Some (JNum 0) →
  normalizeAthlete (JObj o) = normalizeAthlete (JObj (delete "lapDistance" o))
  ∧ ∀ n : JsVal,
      normalizeAthlete (JObj o) = Some n →
      ∃ m : gmap string JsVal,
        n = JObj m ∧ m !! "lapDistance" = Some (JNum 400).
Proof.
  intros Hld. split; [by apply normalizeAthlete_without_lapDistance|].
  intros n Hn. unfold normalizeAthlete in Hn. simpl in Hn.
  rewrite Hld in Hn. simpl in Hn.
  apply bind_Some in Hn as (lapsArr & _ & Hn).
  apply bind_Some in Hn as (newLaps & _ & Hn).
  injection Hn as <-. eexists. split; [reflexivity|].
  rewrite lookup_insert_ne by done. by rewrite lookup_insert_eq.
Qed.

Lemma stored_zero_lapDistance_loads_as_400_witness :
  ∃ m : gmap string JsVal,
    normalizeAthlete (athleteToJSON zeroLapDistance) = Some (JObj m)
    ∧ m !! "lapDistance" = Some (JNum 400)
    ∧ normalizeAthlete
        (JObj (delete "lapDistance" (ownProps (athleteToJSON zeroLapDistance))))
      = Some (JObj m).
Proof.
  destruct (stored_zero_lapDistance_loads_as_400
              (ownProps (athleteToJSON zeroLapDistance)))
    as [Hsame Hres]; [reflexivity|].
  destruct (Hres (athleteToJSON (reloadAthlete zeroLapDistance)))
    as (m & Hm & Hld); [apply normalizeAthlete_saved|].
  exists m. split; [|split; [exact Hld|]].
  - rewrite <-Hm. apply normalizeAthlete_saved.
  - rewrite <-Hsame, <-Hm. apply normalizeAthlete_saved.
Defined.

(** The same on a record this application saved: the athlete comes back
    with a lap distance of 400. *)
Lemma saved_zero_lapDistance (a : Athlete) :
  lapDistance a = 0 →
  load (save [a]) = [athleteToJSON (reloadAthlete a)]
  ∧ lapDistance (reloadAthlete a) = 400.
Proof.
  intros Hz. split; [apply load_save|].
  unfold reloadAthlete. simpl. by rewrite Hz.
Qed.

(* ===================================================================== *)
(** ** Further invariants of the reachable states *)
(* ===================================================================== *)

Lemma map_is_fmap {A B} (f : A → B) (l : list A) : map f l = f <$> l.
Proof. reflexivity. Qed.

Section HandlerInvariant.
(** A property of one athlete that every per-athlete handler keeps. *)
Variable P : Athlete → Prop.
Variable ok : App → Command → Prop.

Hypothesis H_new : ∀ s f, ok s (CAdd f) → P (newAthlete (nextId s) f).
Hypothesis H_startStop : ∀ i now a, P a → P (startStopOne i now a).
Hypothesis H_lap : ∀ i now a, P a → P (lapOne i now a).
Hypothesis H_reset : ∀ i a, P a → P (resetOne i a).
Hypothesis H_edit :
  ∀ s i d a, ok s (CEdit i d) → a ∈ athletes s → id a = i →
             P a → P (updateOne i d a).
Hypothesis H_tick : ∀ now a, P a → P (tickOne now a).
Hypothesis H_reload : ∀ a, P a → P (reloadAthlete a).

Lemma step_handler_invariant (s : App) (c : Command) :
  ok s c → Forall P (athletes s) → Forall P (athletes (step c s)).
Proof using All.
  intros Hok Hs.
  destruct c as [f|j|j now|j now|j|j d|now|]; simpl.
  - unfold handleAddAthlete. case_bool_decide; [done|]. simpl.
    apply Forall_app. split; [done|]. repeat constructor. by apply H_new.
  - by apply Forall_List_filter.
  - apply Forall_map_elem; [|done]. auto.
  - apply Forall_map_elem; [|done]. auto.
  - apply Forall_map_elem; [|done]. auto.
  - apply Forall_map_elem; [|done]. intros a Hin Ha.
    destruct (decide (id a = j)) as [E|N]; [by eapply H_edit|].
    by rewrite updateOne_other.
  - apply Forall_map_elem; [|done]. auto.
  - apply Forall_fmap. eapply Forall_impl; [done|]. intros a. apply H_reload.
Qed.

Lemma reachable_handler_invariant (s : App) :
  reachable ok s → Forall P (athletes s).
Proof using All.
  induction 1 as [|s c Hs IH Hok]; [constructor|].
  by apply step_handler_invariant.
Qed.
End HandlerInvariant.

(** X2.  In every reachable state the personal-best distance of every
    athlete equals its target distance: the add form fills both from the
    same field and an edit overwrites both with the new target. *)
Theorem pbDistance_mirrors_targetDistance (s : App) (a : Athlete) :
  reachable any_command s → a ∈ athletes s →
  pbDistance a = targetDistance a.
Proof.
  intros Hs Ha. revert a Ha. apply Forall_forall.
  apply (reachable_handler_invariant
           (fun a => pbDistance a = targetDistance a) any_command);
    try done.
  - intros i now a Ha. unfold startStopOne.
    by destruct (_ =? _), (isRunning a).
  - intros i now a Ha. unfold lapOne. by destruct (_ && _).
  - intros i a Ha. unfold resetOne. by destruct (_ =? _).
  - intros s0 i d a _ _ _ Ha. unfold updateOne. by destruct (_ =? _).
  - intros now a Ha. unfold tickOne.
    destruct (startTime a); [|done]. by destruct (_ && _).
Qed.

Lemma pbDistance_mirrors_targetDistance_witness :
  pbDistance (adaWith 300 true (Some 1000) 60000 [mkLap 1 60000 400 61000])
  = 300.
Proof.
  apply (pbDistance_mirrors_targetDistance
           (run sessionShrinkTarget initialApp)).
  - apply reachable_run_any.
  - rewrite sessionShrinkTarget_result. apply list_elem_of_here.
Defined.

(** X3.  In every reachable state an athlete is running exactly when its
    [startTime] is set: start sets both, stop, reset and reload clear
    both, and lap, edit and the refresh touch neither. *)
Theorem running_iff_startTime_set (s : App) (a : Athlete) :
  reachable any_command s → a ∈ athletes s →
  (isRunning a = true ↔ is_Some (startTime a)).
Proof.
  intros Hs Ha. revert a Ha. apply Forall_forall.
  apply (reachable_handler_invariant run_state_consistent any_command).
  - intros s0 f _. split; [done|]. by intros [? ?].
  - intros i now a Ha. unfold startStopOne.
    destruct (_ =? _); [|done].
    unfold run_state_consistent. destruct (isRunning a); simpl.
    + split; [done|]. by intros [? ?].
    + split; eauto.
  - intros i now a Ha. unfold lapOne. by destruct (_ && _).
  - intros i a Ha. unfold resetOne. destruct (_ =? _); [|done].
    split; [done|]. by intros [? ?].
  - intros s0 i d a _ _ _ Ha. unfold updateOne. by destruct (_ =? _).
  - intros now a Ha. unfold tickOne.
    destruct (startTime a) eqn:E; [|done].
    destruct (_ && _); [|done].
    exact Ha.
  - intros a _. split; [done|]. by intros [? ?].
  - exact Hs.
Qed.

Lemma running_iff_startTime_set_witness :
  isRunning (adaWith 1000 false None 200000
               [mkLap 1 60000 400 61000; mkLap 2 130000 800 131000;
                mkLap 3 200000 1000 201000]) = true
  ↔ is_Some (@None Z).
Proof.
  apply (running_iff_startTime_set (run sessionFullRace initialApp)).
  - apply reachable_run_any.
  - rewrite sessionFullRace_result. apply list_elem_of_here.
Defined.

(** *** Identifiers *)

Lemma foldl_max_ge (xs : list Z) (x : Z) :
  x ≤ foldl Z.max x xs ∧ ∀ y : Z, y ∈ xs → y ≤ foldl Z.max x xs.
Proof.
  revert x. induction xs as [|z xs IH]; intros x; simpl.
  - split; [lia|]. intros y Hy. by apply elem_of_nil in Hy.
  - destruct (IH (Z.max x z)) as [Hx Hxs]. split; [lia|].
    intros y Hy. apply elem_of_cons in Hy as [->|Hy]; [lia|by apply Hxs].
Qed.

Lemma initialNextId_above (l : list Athlete) (a : Athlete) :
  a ∈ l → id a < initialNextId l.
Proof.
  intros Ha. unfold initialNextId.
  assert (id a ∈ id <$> l) as Hin by by apply list_elem_of_fmap_2.
  destruct (id <$> l) as [|x xs]; [by apply elem_of_nil in Hin|].
  destruct (foldl_max_ge xs x) as [Hx Hxs].
  apply elem_of_cons in Hin as [->|Hin]; [lia|].
  specialize (Hxs _ Hin). lia.
Qed.

Lemma ids_map (f : Athlete → Athlete) (l : list Athlete) :
  (∀ a, id (f a) = id a) → id <$> map f l = id <$> l.
Proof.
  intros Hf. change (map f l) with (f <$> l).
  rewrite <-list_fmap_compose.
  apply list_fmap_ext. intros i a _. apply Hf.
Qed.

Lemma List_filter_sublist {A} (p : A → bool) (l : list A) :
  List.filter p l `sublist_of` l.
Proof.
  induction l as [|x l IH]; simpl; [done|].
  destruct (p x); [by apply sublist_skip|by apply sublist_cons].
Qed.

Lemma elem_of_map_id (f : Athlete → Athlete) (l : list Athlete) (b : Athlete) :
  (∀ a, id (f a) = id a) → b ∈ map f l → ∃ a, a ∈ l ∧ id a = id b.
Proof.
  intros Hf Hb. change (map f l) with (f <$> l) in Hb.
  apply list_elem_of_fmap in Hb as (a & -> & Ha). eauto.
Qed.

Lemma ids_fresh_map (f : Athlete → Athlete) (l : list Athlete) (n : Z) :
  (∀ a, id (f a) = id a) →
  ids_fresh (mkApp l n) → ids_fresh (mkApp (map f l) n).
Proof.
  intros Hf [Hnd Hlt]. cbn [athletes nextId] in *. split.
  - cbn [athletes]. by rewrite ids_map.
  - cbn [athletes nextId]. intros b Hb.
    destruct (elem_of_map_id f l b Hf Hb) as (a & Ha & <-).
    by apply Hlt.
Qed.

Lemma tickOne_id (now : Z) (a : Athlete) : id (tickOne now a) = id a.
Proof.
  unfold tickOne. destruct (startTime a); [|done]. by destruct (_ && _).
Qed.

Lemma ids_fresh_step (s : App) (c : Command) :
  ids_fresh s → ids_fresh (step c s).
Proof.
  intros Hs. destruct s as [l n].
  destruct c as [f|j|j now|j now|j|j d|now|]; simpl.
  - unfold handleAddAthlete. case_bool_decide; [done|]. simpl.
    destruct Hs as [Hnd Hlt]. simpl in *. split; simpl.
    + rewrite fmap_app. apply NoDup_app. split; [done|]. split.
      * intros x Hx Hn. apply list_elem_of_singleton in Hn as ->.
        apply list_elem_of_fmap in Hx as (a & E & Ha).
        specialize (Hlt a Ha). simpl in E. lia.
      * apply NoDup_singleton.
    + intros a Ha. apply elem_of_app in Ha as [Ha|Ha].
      * specialize (Hlt a Ha). lia.
      * apply list_elem_of_singleton in Ha as ->. simpl. lia.
  - destruct Hs as [Hnd Hlt]. unfold on_athletes, handleRemoveAthlete.
    split; simpl in *.
    + eapply (sublist_NoDup _ (id <$> l)); [exact Hnd|].
      apply fmap_sublist, List_filter_sublist.

    + intros a Ha. apply Hlt.
      eapply elem_of_sublist; [exact Ha|apply List_filter_sublist].
  - apply ids_fresh_map; [|done]. intros a. apply startStopOne_id.
  - apply ids_fresh_map; [|done]. intros a. apply lapOne_id.
  - apply ids_fresh_map; [|done]. intros a. apply resetOne_id.
  - apply ids_fresh_map; [|done]. intros a. apply updateOne_id.
  - apply ids_fresh_map; [|done]. intros a. apply tickOne_id.
  - destruct Hs as [Hnd Hlt]. split; simpl in *.
    + by rewrite <-list_fmap_compose.
    + intros a Ha. by apply initialNextId_above.
Qed.

Lemma foldl_max_in (xs : list Z) (x : Z) : foldl Z.max x xs ∈ x :: xs.
Proof.
  revert x. induction xs as [|z xs IH]; intros x; simpl.
  - apply list_elem_of_here.
  - specialize (IH (Z.max x z)).
    apply elem_of_cons in IH as [E|IH].
    + rewrite E. destruct (Z.max_spec x z) as [[_ ->]|[_ ->]].
      * apply list_elem_of_further, list_elem_of_here.
      * apply list_elem_of_here.
    + by do 2 apply list_elem_of_further.
Qed.

(** The counter a reload starts with is 0 for an empty list and otherwise
    one above the id of an athlete that no other athlete exceeds. *)
Lemma initialNextId_largest (l : list Athlete) :
  (l = [] → initialNextId l = 0)
  ∧ (l ≠ [] →
     ∃ b : Athlete,
       b ∈ l ∧ initialNextId l = id b + 1
       ∧ ∀ a : Athlete, a ∈ l → id a ≤ id b).
Proof.
  split; [by intros ->|]. intros Hne.
  destruct l as [|a0 l]; [done|]. unfold initialNextId.
  rewrite fmap_cons.
  pose proof (foldl_max_in (id <$> l) (id a0)) as Hin.
  rewrite <-fmap_cons in Hin.
  apply list_elem_of_fmap in Hin as (b & Eb & Hb).
  exists b. split; [done|]. split; [by rewrite Eb|].
  intros a Ha. rewrite <-Eb.
  destruct (foldl_max_ge (id <$> l) (id a0)) as [H0 Hl].
  apply elem_of_cons in Ha as [->|Ha]; [done|].
  apply Hl. by apply list_elem_of_fmap_2.
Qed.

(** X1.  In every reachable state the athlete ids are pairwise different
    and every id is below the [nextId] counter, so the next athlete added
    gets an id no present athlete has; this holds across removals and
    across a reload, which keeps every id and restarts the counter at 0
    for an empty list and otherwise one above the largest stored id. *)
Theorem ids_unique_and_below_counter (s : App) :
  reachable any_command s →
  NoDup (id <$> athletes s)
  ∧ (∀ a : Athlete, a ∈ athletes s → id a < nextId s)
  ∧ id <$> athletes (step CReload s) = id <$> athletes s
  ∧ (athletes s = [] → nextId (step CReload s) = 0)
  ∧ (athletes s ≠ [] →
     ∃ b : Athlete,
       b ∈ athletes s
       ∧ nextId (step CReload s) = id b + 1
       ∧ ∀ a : Athlete, a ∈ athletes s → id a ≤ id b).
Proof.
  intros Hs.
  assert (ids_fresh s) as [Hnd Hlt].
  { induction Hs as [|s c Hs IH _].
    - split; [constructor|]. intros a Ha. by apply elem_of_nil in Ha.
    - by apply ids_fresh_step. }
  split; [exact Hnd|]. split; [exact Hlt|].
  assert (id <$> (reloadAthlete <$> athletes s) = id <$> athletes s) as Eids
    by by rewrite <-list_fmap_compose.
  simpl. split; [exact Eids|].
  destruct (initialNextId_largest (reloadAthlete <$> athletes s))
    as [Hempty Hmax].
  split.
  - intros E. apply Hempty. by rewrite E.
  - intros Hne. destruct Hmax as (b' & Hb' & Enext & Hle).
    { intros E. apply fmap_nil_inv in E. done. }
    apply list_elem_of_fmap in Hb' as (b & -> & Hb).
    exists b. split; [done|]. split; [exact Enext|].
    intros a Ha. apply (Hle (reloadAthlete a)).
    by apply list_elem_of_fmap_2.
Qed.

Lemma sessionThreeAdds_ids :
  id <$> athletes (run sessionThreeAdds initialApp) = [1; 2]
  ∧ nextId (run sessionThreeAdds initialApp) = 3.
Proof. split; vm_compute; reflexivity. Qed.

Lemma ids_unique_and_below_counter_witness :
  NoDup (id <$> athletes (run sessionThreeAdds initialApp))
  ∧ (∀ a : Athlete,
       a ∈ athletes (run sessionThreeAdds initialApp) →
       id a < nextId (run sessionThreeAdds initialApp))
  ∧ id <$> athletes (step CReload (run sessionThreeAdds initialApp))
    = id <$> athletes (run sessionThreeAdds initialApp)
  ∧ (athletes (run sessionThreeAdds initialApp) = [] →
     nextId (step CReload (run sessionThreeAdds initialApp)) = 0)
  ∧ (athletes (run sessionThreeAdds initialApp) ≠ [] →
     ∃ b : Athlete,
       b ∈ athletes (run sessionThreeAdds initialApp)
       ∧ nextId (step CReload (run sessionThreeAdds initialApp)) = id b + 1
       ∧ ∀ a : Athlete,
           a ∈ athletes (run sessionThreeAdds initialApp) → id a ≤ id b).
Proof.
  apply (ids_unique_and_below_counter (run sessionThreeAdds initialApp)).
  apply reachable_run_any.
Defined.

(** *** Distances in closed form *)










(** *** Chronological order *)

Lemma chronological_mono (t t' : Z) (a : Athlete) :
  t ≤ t' → chronological t a → chronological t' a.
Proof.
  intros Hle (Ht & Hl & Ho & Hr). split; [done|]. split; [|split; [done|]].
  - intros l Hin. destruct (Hl l Hin) as (? & ? & ?). lia.
  - intros st Hrun Hst. specialize (Hr st Hrun Hst). lia.
Qed.

Lemma chronological_lap (t now : Z) (a : Athlete) :
  t ≤ now → chronological t a →
  chronological now (with_laps a (calculateNextLap now a (time a))).
Proof.
  intros Hle Ha.
  destruct (calculateNextLap_cases now (time a) a)
    as [(_ & _ & ->)|[_ ->]].
  { apply (chronological_mono t now); [done|]. exact Ha. }
  destruct Ha as (Ht & Hl & Ho & Hr).
  split; [done|]. split; [|split]; simpl.
  - intros l Hin. apply elem_of_app in Hin as [Hin|Hin].
    + destruct (Hl l Hin) as (? & ? & ?). lia.
    + apply list_elem_of_singleton in Hin as ->. simpl. lia.
  - intros i x y Hx Hy.
    apply lookup_app_Some in Hy as [Hy|[Hlen Hy]].
    + apply lookup_lt_Some in Hy as Hlt.
      rewrite lookup_app_l in Hx by lia. by eapply Ho.
    + apply list_lookup_singleton_Some in Hy as [Hi <-]. simpl.
      rewrite lookup_app_l in Hx by lia.
      apply list_elem_of_lookup_2 in Hx.
      destruct (Hl x Hx) as (? & ? & ?). lia.
  - intros st Hrun Hst. specialize (Hr st Hrun Hst). lia.
Qed.

Lemma chronological_cleared (t : Z) (a : Athlete) :
  time a = 0 → laps a = [] → isRunning a = false → chronological t a.
Proof.
  intros Ht El Er. unfold chronological. rewrite Ht, El, Er.
  split; [done|]. split; [|split]; [| |done].
  - intros l Hl. by apply elem_of_nil in Hl.
  - intros i x y Hx. by rewrite lookup_nil in Hx.
Qed.

Lemma chronological_step (t : Z) (s : App) (c : Command) :
  (∀ now, clock_of c = Some now → t ≤ now) →
  Forall (chronological t) (athletes s) →
  Forall (chronological (default t (clock_of c))) (athletes (step c s)).
Proof.
  intros Hclock Hs.
  destruct c as [f|j|j now|j now|j|j d|now|]; simpl.
  - unfold handleAddAthlete. case_bool_decide; [done|]. simpl.
    apply Forall_app. split; [done|].
    apply Forall_singleton. by apply chronological_cleared.
  - by apply Forall_List_filter.
  - specialize (Hclock now eq_refl).
    apply List.Forall_map. eapply Forall_impl; [exact Hs|].
    intros a Ha. unfold startStopOne.
    destruct (_ =? _); [|by apply (chronological_mono t)].
    destruct (isRunning a) eqn:Erun.
    + destruct (chronological_lap t now a Hclock Ha) as (H1 & H2 & H3 & _).
      split; [done|]. split; [done|]. split; [done|].
      intros st Hrun. done.
    + destruct Ha as (Ht & Hl & Ho & _).
      split; [done|]. split; [|split; [done|]]; simpl.
      * intros l Hin. destruct (Hl l Hin) as (? & ? & ?). lia.
      * intros st _ [= <-]. lia.
  - specialize (Hclock now eq_refl).
    apply List.Forall_map. eapply Forall_impl; [exact Hs|].
    intros a Ha. unfold lapOne.
    destruct (_ && _); [|by apply (chronological_mono t)].
    by apply (chronological_lap t).
  - apply List.Forall_map. eapply Forall_impl; [exact Hs|].
    intros a Ha. unfold resetOne. destruct (_ =? _); [|done].
    by apply chronological_cleared.
  - apply List.Forall_map. eapply Forall_impl; [exact Hs|].
    intros a Ha. unfold updateOne. by destruct (_ =? _).
  - specialize (Hclock now eq_refl).
    apply List.Forall_map. eapply Forall_impl; [exact Hs|].
    intros a Ha. unfold tickOne.
    destruct (startTime a) as [st|] eqn:Est;
      [|by apply (chronological_mono t)].
    destruct (isRunning a) eqn:Erun; simpl;
      [|by apply (chronological_mono t)].
    destruct (st =? 0); simpl; [by apply (chronological_mono t)|].
    destruct Ha as (Ht & Hl & Ho & Hr).
    specialize (Hr st Erun Est).
    split; [simpl; lia|]. split; [|split; [done|]]; simpl.
    + intros l Hin. destruct (Hl l Hin) as (? & ? & ?). lia.
    + intros st' _ Hst'. rewrite Est in Hst'. injection Hst' as <-. lia.
  - apply Forall_fmap. eapply Forall_impl; [exact Hs|].
    intros a (Ht & Hl & Ho & _). unfold compose, chronological.
    rewrite reloadAthlete_laps.
    split; [exact Ht|]. split; [exact Hl|]. split; [exact Ho|].
    intros st Hrun. unfold reloadAthlete in Hrun. discriminate Hrun.
Qed.

Lemma chronological_reachable (t : Z) (s : App) :
  reachable_clock t s → Forall (chronological t) (athletes s).
Proof.
  induction 1 as [t0|t s c Hs IH Hc]; [constructor|].
  by apply chronological_step.
Qed.

Lemma reachable_clock_run (cs : list Command) (t : Z) (s : App) :
  reachable_clock t s → clock_monotone t cs = true →
  reachable_clock (final_clock t cs) (run cs s).
Proof.
  revert t s. induction cs as [|c cs IH]; intros t s Hs Hm; [done|].
  simpl in Hm |- *. apply IH.
  - apply rc_step; [done|]. intros now E. rewrite E in Hm.
    apply andb_prop in Hm as [Hle _]. lia.
  - destruct (clock_of c) as [now|]; simpl; [|done].
    by apply andb_prop in Hm as [_ Hm].
Qed.

(** X6.  As long as the clock values the commands read never go
    backwards, every athlete's elapsed time is non-negative, every lap's
    [totalTime] lies between 0 and the athlete's current [time], and both
    [totalTime] and [timestamp] are non-decreasing along the lap array
    (equal values occur, for instance when a stop follows a lap without a
    refresh in between). *)
Theorem laps_in_chronological_order (t : Z) (s : App) (a : Athlete) :
  reachable_clock t s → a ∈ athletes s →
  0 ≤ time a
  ∧ (∀ l : Lap, l ∈ laps a → 0 ≤ totalTime l ∧ totalTime l ≤ time a)
  ∧ (∀ (i : nat) (x y : Lap),
       laps a !! i = Some x → laps a !! S i = Some y →
       totalTime x ≤ totalTime y ∧ timestamp x ≤ timestamp y).
Proof.
  intros Hs Ha. apply chronological_reachable in Hs.
  rewrite Forall_forall in Hs. destruct (Hs a Ha) as (Ht & Hl & Ho & _).
  split; [done|]. split; [|done].
  intros l Hin. destruct (Hl l Hin) as (? & ? & _). done.
Qed.

Lemma laps_in_chronological_order_witness :
  let a := adaWith 1000 false None 200000
             [mkLap 1 60000 400 61000; mkLap 2 130000 800 131000;
              mkLap 3 200000 1000 201000] in
  0 ≤ time a
  ∧ (∀ l : Lap, l ∈ laps a → 0 ≤ totalTime l ∧ totalTime l ≤ time a)
  ∧ (∀ (i : nat) (x y : Lap),
       laps a !! i = Some x → laps a !! S i = Some y →
       totalTime x ≤ totalTime y ∧ timestamp x ≤ timestamp y).
Proof.
  apply (laps_in_chronological_order (final_clock 0 sessionFullRace)
           (run sessionFullRace initialApp)).
  - apply reachable_clock_run; [apply rc_init|reflexivity].
  - rewrite sessionFullRace_result. apply list_elem_of_here.
Defined.

(* ===================================================================== *)
(** ** The handlers one by one *)
(* ===================================================================== *)

Lemma calculateNextLap_grows (now t : Z) (a : Athlete) :
  laps a `prefix_of` calculateNextLap now a t
  ∧ (length (calculateNextLap now a t) ≤ length (laps a) + 1)%nat.
Proof.
  destruct (calculateNextLap_cases now t a) as [(_ & _ & ->)|[_ ->]].
  - split; [done|lia].
  - split; [by apply prefix_app_r|]. rewrite length_app. simpl. lia.
Qed.

Lemma handler_grows (f : Athlete → Athlete) (a : Athlete) :
  f a = a
  ∨ (∃ now t r st, f a = with_run (with_laps a (calculateNextLap now a t)) r st)
  ∨ (∃ now t, f a = with_laps a (calculateNextLap now a t))
  ∨ (id (f a) = id a ∧ laps (f a) = laps a) →
  id (f a) = id a
  ∧ laps a `prefix_of` laps (f a)
  ∧ (length (laps (f a)) ≤ length (laps a) + 1)%nat.
Proof.
  intros [->|[(now & t & r & st & ->)|[(now & t & ->)|[Hi Hl]]]]; simpl.
  - split; [done|]. split; [done|lia].
  - split; [done|]. apply calculateNextLap_grows.
  - split; [done|]. apply calculateNextLap_grows.
  - rewrite Hl. split; [done|]. split; [done|lia].
Qed.

Lemma lookup_map {A B} (f : A → B) (l : list A) (k : nat) :
  map f l !! k = f <$> l !! k.
Proof. change (map f l) with (f <$> l). apply list_lookup_fmap. Qed.

(** X7.  Laps are append-only: whatever command other than reset and
    remove is executed, the athlete at each position keeps its id, its old
    laps are a prefix of its new laps, and at most one lap is added. *)
Theorem laps_only_grow (c : Command) (s : App) (k : nat) (a : Athlete) :
  (∀ i, c ≠ CReset i) → (∀ i, c ≠ CRemove i) →
  athletes s !! k = Some a →
  ∃ a' : Athlete,
    athletes (step c s) !! k = Some a'
    ∧ id a' = id a
    ∧ laps a `prefix_of` laps a'
    ∧ (length (laps a') ≤ length (laps a) + 1)%nat.
Proof.
  intros Hreset Hremove Hk.
  destruct c as [f|j|j now|j now|j|j d|now|];
    cbn [step on_athletes athletes];
    unfold handleStartStop, handleLap, handleUpdateAthlete, updateTimers.
  - exists a. split; [|split; [done|split; [done|lia]]].
    unfold handleAddAthlete. case_bool_decide; [done|]. simpl.
    by apply lookup_app_l_Some.
  - by destruct (Hremove j).
  - exists (startStopOne j now a). rewrite lookup_map, Hk.
    split; [done|]. apply (handler_grows (startStopOne j now)).
    unfold startStopOne. destruct (_ =? _); [|by left].
    destruct (isRunning a); [right; left; eauto|].
    do 3 right. done.
  - exists (lapOne j now a). rewrite lookup_map, Hk.
    split; [done|]. apply (handler_grows (lapOne j now)).
    unfold lapOne. destruct (_ && _); [|by left].
    right; right; left. eauto.
  - by destruct (Hreset j).
  - exists (updateOne j d a). rewrite lookup_map, Hk.
    split; [done|]. apply (handler_grows (updateOne j d)).
    do 3 right. unfold updateOne. by destruct (_ =? _).
  - exists (tickOne now a). rewrite lookup_map, Hk.
    split; [done|]. apply (handler_grows (tickOne now)).
    do 3 right. unfold tickOne.
    destruct (startTime a); [|done]. by destruct (_ && _).
  - exists (reloadAthlete a). rewrite list_lookup_fmap, Hk.
    split; [done|]. apply (handler_grows reloadAthlete).
    do 3 right. split; [done|apply reloadAthlete_laps].
Qed.

Lemma laps_only_grow_witness :
  ∃ a' : Athlete,
    athletes (step (CStartStop 1 140000) twoRunners) !! 1%nat = Some a'
    ∧ id a' = 1
    ∧ [mkLap 1 60000 400 61000; mkLap 2 130000 800 131000]
      `prefix_of` laps a'
    ∧ (length (laps a') ≤ 2 + 1)%nat.
Proof.
  apply (laps_only_grow (CStartStop 1 140000) twoRunners 1%nat
           {| id := 1; name := "Bo"; startTime := Some 1000; time := 130000;
              laps := [mkLap 1 60000 400 61000; mkLap 2 130000 800 131000];
              isRunning := true; targetDistance := 1600; targetTime := 0;
              pbDistance := 1600; pbTime := 0; lapDistance := 400 |}).
  - intros i. discriminate.
  - intros i. discriminate.
  - reflexivity.
Defined.

Lemma map_unchanged {A} (f : A → A) (l : list A) :
  (∀ a, a ∈ l → f a = a) → map f l = l.
Proof.
  intros Hf. induction l as [|x l IH]; [done|].
  simpl. rewrite Hf by apply list_elem_of_here.
  rewrite IH; [done|]. intros a Ha. apply Hf. by apply list_elem_of_further.
Qed.

Lemma List_filter_all {A} (p : A → bool) (l : list A) :
  (∀ a, a ∈ l → p a = true) → List.filter p l = l.
Proof.
  intros Hp. induction l as [|x l IH]; [done|].
  simpl. rewrite Hp by apply list_elem_of_here.
  rewrite IH; [done|]. intros a Ha. apply Hp. by apply list_elem_of_further.
Qed.

(** X8.  A start/stop, lap, reset, edit or remove command aimed at an id
    that no athlete has leaves the athlete list and the id counter as
    they were.  (The athlete list and the counter are all that [App]
    holds; an edit also closes the edit form, whatever the id.) *)
Theorem command_on_absent_id_changes_nothing
  (c : Command) (i : Z) (s : App) :
  target_of c = Some i →
  (∀ a : Athlete, a ∈ athletes s → id a ≠ i) →
  athletes (step c s) = athletes s ∧ nextId (step c s) = nextId s.
Proof.
  intros Ht Habs. destruct s as [l n]. simpl in Habs.
  destruct c as [f|j|j now|j now|j|j d|now|]; simpl in Ht |- *;
    try discriminate; injection Ht as ->; (split; [|done]).
  - apply List_filter_all. intros a Ha. specialize (Habs a Ha).
    by destruct (Z.eqb_spec (id a) i).
  - apply map_unchanged. intros a Ha. apply startStopOne_other; auto.
  - apply map_unchanged. intros a Ha. apply lapOne_other; auto.
  - apply map_unchanged. intros a Ha. apply resetOne_other; auto.
  - apply map_unchanged. intros a Ha. apply updateOne_other; auto.
Qed.

Lemma command_on_absent_id_changes_nothing_witness :
  athletes (step (CReset 9) twoRunners) = athletes twoRunners
  ∧ nextId (step (CReset 9) twoRunners) = nextId twoRunners.
Proof.
  apply (command_on_absent_id_changes_nothing (CReset 9) 9 twoRunners).
  - reflexivity.
  - intros a Ha. vm_compute in Ha.
    apply elem_of_cons in Ha as [->|Ha]; [discriminate|].
    apply list_elem_of_singleton in Ha as ->. discriminate.
Defined.

(** X9.  The lap command records nothing for an athlete that is not
    running: if every athlete with the given id is stopped, the athlete
    list stays as it is. *)
Theorem lap_needs_running_athlete (i now : Z) (l : list Athlete) :
  (∀ a : Athlete, a ∈ l → id a = i → isRunning a = false) →
  handleLap i now l = l.
Proof.
  intros Hstopped. apply map_unchanged. intros a Ha. unfold lapOne.
  destruct (Z.eqb_spec (id a) i) as [E|N]; [|done].
  by rewrite (Hstopped a Ha E).
Qed.

Lemma lap_needs_running_athlete_witness :
  handleLap 4 1700000070000 [pausedRunner] = [pausedRunner].
Proof.
  apply (lap_needs_running_athlete 4 1700000070000 [pausedRunner]).
  intros a Ha _. apply list_elem_of_singleton in Ha as ->. reflexivity.
Defined.

Lemma resetOne_resetOne (i : Z) (a : Athlete) :
  resetOne i (resetOne i a) = resetOne i a.
Proof.
  unfold resetOne. destruct (id a =? i) eqn:E; simpl; [|by rewrite E].
  by rewrite E.
Qed.

(** X10.  Reset clears the timer of the athlete it is aimed at whatever
    state it was in (time 0, no laps, stopped, no start time) and keeps
    its name, targets and lap distance; the list keeps its length, and a
    second reset changes nothing more. *)
Theorem reset_clears_timer_only (i : Z) (l : list Athlete) (k : nat)
  (a : Athlete) :
  l !! k = Some a → id a = i →
  handleReset i l !! k = Some (cleared a)
  ∧ length (handleReset i l) = length l
  ∧ handleReset i (handleReset i l) = handleReset i l.
Proof.
  intros Hk Hid. unfold handleReset. split; [|split].
  - rewrite lookup_map, Hk. simpl. unfold resetOne.
    by rewrite <-Hid, Z.eqb_refl.
  - apply length_map.
  - rewrite List.map_map. apply List.map_ext. intros b.
    apply resetOne_resetOne.
Qed.

Lemma reset_clears_timer_only_witness :
  handleReset 1 (athletes twoRunners) !! 1%nat
  = Some {| id := 1; name := "Bo"; startTime := None; time := 0; laps := [];
            isRunning := false; targetDistance := 1600; targetTime := 0;
            pbDistance := 1600; pbTime := 0; lapDistance := 400 |}
  ∧ length (handleReset 1 (athletes twoRunners)) = 2%nat
  ∧ handleReset 1 (handleReset 1 (athletes twoRunners))
    = handleReset 1 (athletes twoRunners).
Proof.
  apply (reset_clears_timer_only 1 (athletes twoRunners) 1%nat
           {| id := 1; name := "Bo"; startTime := Some 1000; time := 130000;
              laps := [mkLap 1 60000 400 61000; mkLap 2 130000 800 131000];
              isRunning := true; targetDistance := 1600; targetTime := 0;
              pbDistance := 1600; pbTime := 0; lapDistance := 400 |});
    reflexivity.
Defined.

(** X11.  Elapsed time is counted only while the athlete runs.  A stopped
    athlete started at clock [n1] shows [time + (n2 - n1)] at the refresh
    at [n2]; a stop at [n3] keeps the value of the last refresh (not
    [n3]); a refresh while stopped changes nothing; and after a new start
    at [n4] the refresh at [n5] shows the sum of the two running
    intervals.  The start times [n1 - time] and [n4 - time] must be
    non-zero, since the refresh skips an athlete whose [startTime] is 0. *)
Theorem paused_time_is_not_counted (a : Athlete) (n1 n2 n3 n4 n5 n : Z) :
  isRunning a = false →
  n1 - time a ≠ 0 → n4 - (time a + (n2 - n1)) ≠ 0 →
  let a1 := tickOne n2 (startStopOne (id a) n1 a) in
  let a2 := startStopOne (id a) n3 a1 in
  let a3 := tickOne n5 (startStopOne (id a) n4 a2) in
  time a1 = time a + (n2 - n1)
  ∧ time a2 = time a1
  ∧ isRunning a2 = false
  ∧ tickOne n a2 = a2
  ∧ time a3 = time a + (n2 - n1) + (n5 - n4).
Proof.
  destruct a as [i nm st tm ls run td tt pd pt ld]; simpl.
  intros -> H1 H4.
  unfold startStopOne, tickOne; simpl. rewrite !Z.eqb_refl; simpl.
  destruct (Z.eqb_spec (n1 - tm) 0) as [E|_]; [done|]. simpl.
  rewrite !Z.eqb_refl; simpl.
  replace (n2 - (n1 - tm)) with (tm + (n2 - n1)) by lia.
  destruct (Z.eqb_spec (n4 - (tm + (n2 - n1))) 0) as [E|_]; [done|]. simpl.
  repeat split; lia.
Qed.

Lemma paused_time_is_not_counted_witness :
  let a1 := tickOne 1700000010000 (startStopOne 4 1700000000000 pausedRunner) in
  let a2 := startStopOne 4 1700000012000 a1 in
  let a3 := tickOne 1700000105000 (startStopOne 4 1700000100000 a2) in
  time a1 = 65000 + (1700000010000 - 1700000000000)
  ∧ time a2 = time a1
  ∧ isRunning a2 = false
  ∧ tickOne 1700000050000 a2 = a2
  ∧ time a3 = 65000 + (1700000010000 - 1700000000000)
              + (1700000105000 - 1700000100000).
Proof.
  apply (paused_time_is_not_counted pausedRunner 1700000000000 1700000010000
           1700000012000 1700000100000 1700000105000 1700000050000).
  - reflexivity.
  - vm_compute. discriminate.
  - vm_compute. discriminate.
Defined.

(** X12.  In simple mode the stop transition always records a closing
    lap, so a manual lap followed by a stop with no refresh in between
    leaves two laps with consecutive numbers and the same [totalTime];
    the athlete is then stopped with its time unchanged. *)
Theorem lap_then_stop_records_two_laps (a : Athlete) (n1 n2 : Z) :
  isRunning a = true → targetDistance a ≤ 0 →
  let a' := startStopOne (id a) n2 (lapOne (id a) n1 a) in
  laps a'
  = laps a ++ [mkLap (Z.of_nat (length (laps a)) + 1) (time a) 0 n1;
               mkLap (Z.of_nat (length (laps a)) + 2) (time a) 0 n2]
  ∧ isRunning a' = false
  ∧ startTime a' = None
  ∧ time a' = time a.
Proof.
  intros Hrun Hsimple.
  assert (∀ b now t, targetDistance b ≤ 0 →
            calculateNextLap now b t
            = laps b ++ [mkLap (Z.of_nat (length (laps b)) + 1) t 0 now])
    as Hcalc.
  { intros b now t Hb. rewrite calculateNextLap_append by lia.
    unfold nextDistance.
    by assert ((0 <? targetDistance b) = false) as -> by lia. }
  cbv zeta. unfold lapOne. rewrite Z.eqb_refl, Hrun. simpl.
  unfold startStopOne. simpl. rewrite Z.eqb_refl, Hrun.
  rewrite !Hcalc by done. simpl.
  rewrite <-app_assoc, length_app. simpl.
  repeat split. do 4 f_equal. lia.
Qed.

Lemma lap_then_stop_records_two_laps_witness :
  let a' := startStopOne 4 1700000071000
              (lapOne 4 1700000070000 simpleRunner) in
  laps a'
  = [mkLap 1 65000 0 1700000065000] ++
    [mkLap 2 65000 0 1700000070000; mkLap 3 65000 0 1700000071000]
  ∧ isRunning a' = false
  ∧ startTime a' = None
  ∧ time a' = 65000.
Proof.
  apply (lap_then_stop_records_two_laps simpleRunner 1700000070000
           1700000071000).
  - reflexivity.
  - vm_compute. discriminate.
Defined.

(* ===================================================================== *)
(** ** The load initializer on arbitrary stored contents *)
(* ===================================================================== *)

Lemma js_or_truthy (x : option JsVal) (d : JsVal) :
  truthy (Some d) = true → truthy (Some (js_or x d)) = true.
Proof.
  intros Hd. unfold js_or. destruct x as [v|]; [|done].
  by destruct (truthy (Some v)) eqn:E.
Qed.

Lemma js_or_cases (x : option JsVal) (d : JsVal) :
  (truthy x = true ∧ x = Some (js_or x d))
  ∨ (truthy x = false ∧ js_or x d = d).
Proof.
  unfold js_or. destruct x as [v|]; [|by right].
  destruct (truthy (Some v)); [by left|by right].
Qed.

Lemma js_or_idem (x : option JsVal) (d : JsVal) :
  js_or (Some (js_or x d)) d = js_or x d.
Proof.
  destruct (js_or_cases x d) as [[Ht E]|[Ht E]].
  - by rewrite <-E.
  - rewrite E. unfold js_or. by destruct (truthy (Some d)).
Qed.

Lemma normalizeLap_Some (lap : JsVal) :
  lap ≠ JNull →
  normalizeLap lap
  = Some (JObj (<["timestamp" := js_or (default None (getProp lap "timestamp"))
                                  (JNum 0)]> (ownProps lap))).
Proof. intros Hn. unfold normalizeLap. destruct lap; [done|reflexivity..]. Qed.

Lemma normalizeLap_None (lap : JsVal) :
  normalizeLap lap = None ↔ lap = JNull.
Proof.
  split; [|by intros ->].
  intros Hn. destruct lap; try done; by rewrite normalizeLap_Some in Hn.
Qed.

Lemma mapM_normalizeLap_is_Some (xs : list JsVal) :
  is_Some (mapM normalizeLap xs)
  ↔ forallb (fun x => negb (isNull x)) xs = true.
Proof.
  rewrite mapM_is_Some, forallb_forall, Forall_forall.
  split; intros H x Hx.
  - apply list_elem_of_In in Hx. specialize (H x Hx). simpl in H.
    destruct x; try done. by destruct H.
  - apply list_elem_of_In in Hx. specialize (H x Hx). simpl.
    destruct x; try done; by rewrite normalizeLap_Some.
Qed.

(** The callback succeeds exactly on the loadable values. *)
Lemma normalizeAthlete_is_Some (athlete : JsVal) :
  is_Some (normalizeAthlete athlete) ↔ loadable athlete = true.
Proof.
  unfold normalizeAthlete.
  destruct athlete as [|b|n|s|xs|fields]; simpl;
    try (split; [done|intros _; eexists; reflexivity]).
  - split; [by intros [? ?]|done].
  - unfold lapsReadable.
    destruct (js_or (fields !! "laps") (JArr [])) as [| | | |ys|]; simpl;
      try (split; [by intros [? ?]|done]).
    rewrite <-mapM_normalizeLap_is_Some.
    destruct (mapM normalizeLap ys); simpl; split; try done;
      by intros [? ?].
Qed.

(** X13.  Loading is all or nothing.  An empty slot, unparsable text or a
    stored value that is not an array gives the empty athlete list; a
    stored array gives one athlete for each element when every element is
    loadable, and the empty list as soon as one element is [null], has a
    truthy [laps] field that is not an array, or has a [null] among its
    laps: one broken record discards all stored athletes. *)
Theorem load_is_all_or_nothing (savedAthletes : option JsVal) :
  match savedAthletes with
  | Some (JArr parsedAthletes) =>
      if forallb loadable parsedAthletes
      then length (load savedAthletes) = length parsedAthletes
      else load savedAthletes = []
  | _ => load savedAthletes = []
  end.
Proof.
  destruct savedAthletes as [[| | | |l|]|]; try done.
  unfold load.
  destruct (forallb loadable l) eqn:E.
  - assert (is_Some (mapM normalizeAthlete l)) as [k Hk].
    { apply mapM_is_Some, Forall_forall. intros x Hx.
      apply normalizeAthlete_is_Some.
      rewrite forallb_forall in E. by apply E, list_elem_of_In. }
    rewrite Hk. simpl. symmetry. by eapply length_mapM.
  - destruct (mapM normalizeAthlete l) as [k|] eqn:Hk; [|done].
    assert (forallb loadable l = true) as E'; [|congruence].
    apply forallb_forall. intros x Hx.
    apply normalizeAthlete_is_Some.
    assert (is_Some (mapM normalizeAthlete l)) as Hs by eauto.
    rewrite mapM_is_Some, Forall_forall in Hs.
    by apply Hs, list_elem_of_In.
Qed.

Lemma normalizeAthlete_Some_inv (athlete n : JsVal) :
  normalizeAthlete athlete = Some n →
  ∃ (ld ls : option JsVal) (lapsArr newLaps : list JsVal),
    getProp athlete "lapDistance" = Some ld
    ∧ getProp athlete "laps" = Some ls
    ∧ asArray (js_or ls (JArr [])) = Some lapsArr
    ∧ mapM normalizeLap lapsArr = Some newLaps
    ∧ n = JObj (<["laps" := JArr newLaps]>
               (<["lapDistance" := js_or ld (JNum 400)]>
               (<["startTime" := JNull]>
               (<["isRunning" := JBool false]>
               (ownProps athlete))))).
Proof.
  unfold normalizeAthlete. intros Hn.
  apply bind_Some in Hn as (ld & Hld & Hn).
  apply bind_Some in Hn as (ls & Hls & Hn).
  apply bind_Some in Hn as (lapsArr & Harr & Hn).
  apply bind_Some in Hn as (newLaps & Hnew & Hn).
  injection Hn as <-. by exists ld, ls, lapsArr, newLaps.
Qed.

Lemma normalizeLap_Some_inv (lap n : JsVal) :
  normalizeLap lap = Some n →
  ∃ ts : option JsVal,
    getProp lap "timestamp" = Some ts
    ∧ n = JObj (<["timestamp" := js_or ts (JNum 0)]> (ownProps lap)).
Proof.
  unfold normalizeLap. intros Hn.
  apply bind_Some in Hn as (ts & Hts & Hn).
  injection Hn as <-. by exists ts.
Qed.

Lemma load_elem (savedAthletes : option JsVal) (o : JsVal) :
  o ∈ load savedAthletes →
  ∃ athlete : JsVal, normalizeAthlete athlete = Some o.
Proof.
  unfold load. destruct savedAthletes as [[| | | |l|]|];
    try (intros H; by apply elem_of_nil in H).
  destruct (mapM normalizeAthlete l) as [k|] eqn:Hk; simpl;
    [|intros H; by apply elem_of_nil in H].
  intros Ho. apply mapM_Some_1 in Hk.
  apply list_elem_of_lookup in Ho as [i Hi].
  destruct (Forall2_lookup_r _ _ _ _ _ Hk Hi) as (x & _ & Hx). eauto.
Qed.

(** X14.  Whatever the store holds, every athlete the initializer returns
    is an object with [isRunning = false], [startTime = null], a truthy
    [lapDistance], and a [laps] array of objects that each have a
    [timestamp] which is truthy or the number 0: no timer resumes after a
    reload and the defaults for old data are always in place. *)
Theorem loaded_athletes_are_stopped (savedAthletes : option JsVal)
  (o : JsVal) :
  o ∈ load savedAthletes →
  ∃ (m : gmap string JsVal) (ls : list JsVal),
    o = JObj m
    ∧ m !! "isRunning" = Some (JBool false)
    ∧ m !! "startTime" = Some JNull
    ∧ truthy (m !! "lapDistance") = true
    ∧ m !! "laps" = Some (JArr ls)
    ∧ Forall (fun lap =>
                ∃ (lm : gmap string JsVal) (ts : JsVal),
                  lap = JObj lm ∧ lm !! "timestamp" = Some ts
                  ∧ (truthy (Some ts) = true ∨ ts = JNum 0)) ls.
Proof.
  intros Ho. apply load_elem in Ho as [athlete Hn].
  apply normalizeAthlete_Some_inv in Hn
    as (ld & ls & lapsArr & newLaps & _ & _ & _ & Hnew & ->).
  eexists _, newLaps. split; [reflexivity|].
  split; [by rewrite !lookup_insert_ne by done; rewrite lookup_insert_eq|].
  split; [by rewrite !lookup_insert_ne by done; rewrite lookup_insert_eq|].
  split.
  { rewrite lookup_insert_ne by done. rewrite lookup_insert_eq.
    by apply js_or_truthy. }
  split; [by rewrite lookup_insert_eq|].
  apply mapM_Some_1 in Hnew. apply Forall_forall. intros lap Hlap.
  apply list_elem_of_lookup in Hlap as [i Hi].
  destruct (Forall2_lookup_r _ _ _ _ _ Hnew Hi) as (x & _ & Hx).
  apply normalizeLap_Some_inv in Hx as (ts & _ & ->).
  eexists _, _. split; [reflexivity|]. split; [apply lookup_insert_eq|].
  destruct (js_or_cases ts (JNum 0)) as [[Ht E]|[Ht E]].
  - left. by rewrite <-E.
  - right. exact E.
Qed.

Lemma normalizeLap_idem (lap n : JsVal) :
  normalizeLap lap = Some n → normalizeLap n = Some n.
Proof.
  intros Hn. apply normalizeLap_Some_inv in Hn as (ts & _ & ->).
  unfold normalizeLap. simpl. rewrite lookup_insert_eq. simpl.
  by rewrite js_or_idem, insert_insert_eq.
Qed.

Lemma mapM_normalizeLap_idem (xs ys : list JsVal) :
  mapM normalizeLap xs = Some ys → mapM normalizeLap ys = Some ys.
Proof.
  intros H. apply mapM_Some_1 in H. apply mapM_Some_2.
  apply Forall_Forall2_diag, Forall_forall. intros y Hy.
  apply list_elem_of_lookup in Hy as [i Hi].
  destruct (Forall2_lookup_r _ _ _ _ _ H Hi) as (x & _ & Hx).
  by eapply normalizeLap_idem.
Qed.

Lemma normalizeAthlete_idem (athlete n : JsVal) :
  normalizeAthlete athlete = Some n → normalizeAthlete n = Some n.
Proof.
  intros Hn. apply normalizeAthlete_Some_inv in Hn
    as (ld & ls & lapsArr & newLaps & _ & _ & _ & Hnew & ->).
  unfold normalizeAthlete. simpl.
  rewrite lookup_insert_ne by done. rewrite !lookup_insert_eq. simpl.
  rewrite (mapM_normalizeLap_idem _ _ Hnew). simpl.
  rewrite js_or_idem.
  apply (f_equal Some), (f_equal JObj).
  apply map_eq. intros k.
  repeat (rewrite lookup_insert; case_decide;
          [subst; by rewrite ?lookup_insert_ne by done;
                     rewrite ?lookup_insert_eq|]).
  done.
Qed.

(** X15.  Loading is idempotent: storing what a load returned and loading
    again returns the same athletes, for any stored content. *)
Theorem load_twice_is_load_once (savedAthletes : option JsVal) :
  load (Some (JArr (load savedAthletes))) = load savedAthletes.
Proof.
  assert (mapM normalizeAthlete (load savedAthletes)
          = Some (load savedAthletes)) as H.
  { apply mapM_Some_2, Forall_Forall2_diag, Forall_forall. intros o Ho.
    apply load_elem in Ho as [athlete Hn]. by eapply normalizeAthlete_idem. }
  unfold load at 1. by rewrite H.
Qed.

Lemma load_legacy :
  load (Some (JArr [JObj legacyAthlete]))
  = [default JNull (normalizeAthlete (JObj legacyAthlete))]
  ∧ normalizeAthlete (JObj legacyAthlete)
    = Some (default JNull (normalizeAthlete (JObj legacyAthlete))).
Proof. split; vm_compute; reflexivity. Qed.

Lemma loaded_athletes_are_stopped_witness :
  ∃ (m : gmap string JsVal) (ls : list JsVal),
    default JNull (normalizeAthlete (JObj legacyAthlete)) = JObj m
    ∧ m !! "isRunning" = Some (JBool false)
    ∧ m !! "startTime" = Some JNull
    ∧ truthy (m !! "lapDistance") = true
    ∧ m !! "laps" = Some (JArr ls)
    ∧ Forall (fun lap =>
                ∃ (lm : gmap string JsVal) (ts : JsVal),
                  lap = JObj lm ∧ lm !! "timestamp" = Some ts
                  ∧ (truthy (Some ts) = true ∨ ts = JNum 0)) ls.
Proof.
  apply (loaded_athletes_are_stopped (Some (JArr [JObj legacyAthlete]))).
  destruct load_legacy as [-> _]. apply list_elem_of_here.
Defined.

(** X16.  The initializer writes four fields of a stored athlete object
    and keeps every other field, known or not, as it was: a truthy
    [lapDistance] is kept, a missing or falsy one becomes 400, and a
    missing or falsy [laps] becomes the empty array. *)
Theorem normalization_keeps_other_fields
  (o : gmap string JsVal) (n : JsVal) :
  normalizeAthlete (JObj o) = Some n →
  ∃ m : gmap string JsVal,
    n = JObj m
    ∧ (∀ k : string, ¬ normalizedKey k → m !! k = o !! k)
    ∧ (truthy (o !! "lapDistance") = true
       → m !! "lapDistance" = o !! "lapDistance")
    ∧ (truthy (o !! "lapDistance") = false
       → m !! "lapDistance" = Some (JNum 400))
    ∧ (truthy (o !! "laps") = false → m !! "laps" = Some (JArr [])).
Proof.
  intros Hn. apply normalizeAthlete_Some_inv in Hn
    as (ld & ls & lapsArr & newLaps & Hld & Hls & Harr & Hnew & ->).
  simpl in Hld, Hls. injection Hld as <-. injection Hls as <-.
  eexists. split; [reflexivity|]. split; [|split; [|split]].
  - intros k Hk. unfold normalizedKey in Hk.
    rewrite !lookup_insert_ne; [done|intros <-; tauto..].
  - intros Ht. rewrite lookup_insert_ne by done. rewrite lookup_insert_eq.
    destruct (js_or_cases (o !! "lapDistance") (JNum 400))
      as [[_ E]|[Hf _]]; [done|congruence].
  - intros Hf. rewrite lookup_insert_ne by done. rewrite lookup_insert_eq.
    destruct (js_or_cases (o !! "lapDistance") (JNum 400))
      as [[Ht _]|[_ ->]]; [congruence|done].
  - intros Hf. rewrite lookup_insert_eq.
    destruct (js_or_cases (o !! "laps") (JArr [])) as [[Ht _]|[_ E]];
      [congruence|].
    rewrite E in Harr. injection Harr as <-.
    simpl in Hnew. by injection Hnew as <-.
Qed.

Lemma normalization_keeps_other_fields_witness :
  ∃ m : gmap string JsVal,
    default JNull (normalizeAthlete (JObj legacyAthlete)) = JObj m
    ∧ (∀ k : string, ¬ normalizedKey k → m !! k = legacyAthlete !! k)
    ∧ (truthy (legacyAthlete !! "lapDistance") = true
       → m !! "lapDistance" = legacyAthlete !! "lapDistance")
    ∧ (truthy (legacyAthlete !! "lapDistance") = false
       → m !! "lapDistance" = Some (JNum 400))
    ∧ (truthy (legacyAthlete !! "laps") = false
       → m !! "laps" = Some (JArr [])).
Proof.
  apply (normalization_keeps_other_fields legacyAthlete).
  by destruct load_legacy as [_ ->].
Defined.

(* ===================================================================== *)
(** ** The whole export *)
(* ===================================================================== *)

Lemma existsb_filter_length {A} (p : A → bool) (l : list A) :
  existsb p l = negb (length (List.filter p l) =? 0)%nat.
Proof.
  induction l as [|x l IH]; [done|].
  simpl. destruct (p x); simpl; [done|exact IH].
Qed.

Lemma length_filter_obj (p : Lap → bool) (xs : list LapObj) :
  length (List.filter (fun x => p (obj x)) xs)
  = length (List.filter p (obj <$> xs)).
Proof.
  induction xs as [|x xs IH]; [done|].
  rewrite fmap_cons. simpl. destruct (p (obj x)); simpl; by rewrite IH.
Qed.

Lemma downloadAthlete_spec (start : Z) (end_ : option Z)
  (acc : list Block * bool) (a : Athlete) :
  downloadAthlete start end_ acc a
  = Some (if hasLapInRange start end_ a
          then (acc.1 ++ [blockOf start end_ a], true)
          else acc).
Proof.
  unfold downloadAthlete, hasLapInRange.
  rewrite existsb_filter_length.
  unfold lapsInRange at 1.
  rewrite (length_filter_obj (inRange start end_)), heapLaps_obj.
  destruct (length (List.filter (inRange start end_) (laps a)) =? 0)%nat;
    simpl; [done|].
  fold (exportRows start end_ (heapLaps a)).
  by rewrite exportRows_heapLaps.
Qed.

Lemma forEachAthlete_spec (start : Z) (end_ : option Z)
  (l : list Athlete) (content : list Block) (hasData : bool) :
  forEachAthlete start end_ (content, hasData) l
  = Some (content
            ++ (blockOf start end_
                  <$> List.filter (hasLapInRange start end_) l),
          hasData || existsb (hasLapInRange start end_) l).
Proof.
  revert content hasData. induction l as [|a l IH]; intros content hasData.
  - simpl. by rewrite app_nil_r, orb_false_r.
  - simpl. rewrite downloadAthlete_spec.
    destruct (hasLapInRange start end_ a); simpl; rewrite IH.
    + by rewrite <-app_assoc, orb_true_r.
    + done.
Qed.

Lemma handleDownload_spec (start : Z) (end_ : option Z) (l : list Athlete) :
  handleDownload start end_ l
  = Some (if existsb (hasLapInRange start end_) l
          then File (blockOf start end_
                       <$> List.filter (hasLapInRange start end_) l)
          else NoData).
Proof. unfold handleDownload. by rewrite forEachAthlete_spec. Qed.

(** X17.  The export never fails.  It answers "no data" exactly when no
    athlete has a lap in the range; otherwise the file holds one block
    for each athlete that has a lap in range, in the order of the athlete
    list, with the "Target" and "PB" lines present exactly when distance
    and time are both positive, and with one row for each lap in range
    (the rows of C1). *)
Theorem download_blocks (start : Z) (end_ : option Z) (l : list Athlete) :
  handleDownload start end_ l
  = Some (if existsb (hasLapInRange start end_) l
          then File (blockOf start end_
                       <$> List.filter (hasLapInRange start end_) l)
          else NoData)
  ∧ ∀ a : Athlete,
      length (b_rows (blockOf start end_ a))
      = length (List.filter (inRange start end_) (laps a))
      ∧ (is_Some (b_target (blockOf start end_ a))
         ↔ 0 < targetDistance a ∧ 0 < targetTime a)
      ∧ (is_Some (b_pb (blockOf start end_ a))
         ↔ 0 < pbDistance a ∧ 0 < pbTime a).
Proof.
  split; [apply handleDownload_spec|].
  intros a. split; [|split].
  - simpl. rewrite length_fmap.
    generalize 0. induction (laps a) as [|x ls IH]; intros prev; [done|].
    simpl. destruct (inRange start end_ x); simpl; by rewrite IH.
  - simpl. unfold headerLine.
    destruct (Z.ltb_spec 0 (targetDistance a)),
             (Z.ltb_spec 0 (targetTime a)); simpl;
      (split; [intros [? ?]; try done; lia|intros [? ?]; try lia; eauto]).
  - simpl. unfold headerLine.
    destruct (Z.ltb_spec 0 (pbDistance a)),
             (Z.ltb_spec 0 (pbTime a)); simpl;
      (split; [intros [? ?]; try done; lia|intros [? ?]; try lia; eauto]).
Qed.

(** X18.  The export answers "no data" if and only if every lap of every
    athlete is outside the range; in particular it does so for an empty
    athlete list, for athletes without laps, and for a range whose end
    lies before its start. *)
Theorem download_no_data (start : Z) (end_ : option Z) (l : list Athlete) :
  (handleDownload start end_ l = Some NoData
   ↔ ∀ (a : Athlete) (lap : Lap),
       a ∈ l → lap ∈ laps a → inRange start end_ lap = false)
  ∧ (∀ e : Z, end_ = Some e → e < start →
       handleDownload start end_ l = Some NoData).
Proof.
  assert (handleDownload start end_ l = Some NoData
          ↔ ∀ (a : Athlete) (lap : Lap),
              a ∈ l → lap ∈ laps a → inRange start end_ lap = false) as Hiff.
  { rewrite handleDownload_spec.
    destruct (existsb (hasLapInRange start end_) l) eqn:E.
    - split; [done|]. intros Hout.
      apply existsb_exists in E as (a & Ha & Hin).
      apply existsb_exists in Hin as (lap & Hlap & Hr).
      rewrite (Hout a lap) in Hr; [done| |]; by apply list_elem_of_In.
    - split; [|done]. intros _ a lap Ha Hlap.
      destruct (inRange start end_ lap) eqn:Hr; [|done].
      assert (existsb (hasLapInRange start end_) l = true); [|congruence].
      apply existsb_exists. exists a. split; [by apply list_elem_of_In|].
      apply existsb_exists. exists lap. split; [by apply list_elem_of_In|].
      done. }
  split; [exact Hiff|].
  intros e -> Hlt. apply Hiff. intros a lap _ _.
  unfold inRange. 
  destruct (Z.leb_spec start (num_or (timestamp lap) 0)); simpl; [|done].
  apply Z.leb_gt. lia.
Qed.

Lemma download_no_data_witness :
  (handleDownload 1700200000000 (Some 1700100000000) exportList = Some NoData
   ↔ ∀ (a : Athlete) (lap : Lap),
       a ∈ exportList → lap ∈ laps a →
       inRange 1700200000000 (Some 1700100000000) lap = false)
  ∧ handleDownload 1700200000000 (Some 1700100000000) exportList
    = Some NoData.
Proof.
  destruct (download_no_data 1700200000000 (Some 1700100000000) exportList)
    as [Hiff Hinv].
  split; [exact Hiff|].
  apply (Hinv 1700100000000); [reflexivity|]. vm_compute. reflexivity.
Defined.

(* ===================================================================== *)
(** ** Add, edit, remove and refresh *)
(* ===================================================================== *)




Lemma tickOne_tickOne (n1 n2 : Z) (a : Athlete) :
  tickOne n2 (tickOne n1 a) = tickOne n2 a.
Proof.
  unfold tickOne. destruct (startTime a) as [st|] eqn:Est; [|by rewrite Est].
  destruct (isRunning a && negb (st =? 0)) eqn:E; simpl.
  - by rewrite Est, E.
  - by rewrite Est, E.
Qed.

Lemma tickOne_fields (now : Z) (a : Athlete) :
  with_time (tickOne now a) (time a) = a.
Proof.
  unfold tickOne. destruct a as [i nm st tm ls run td tt pd pt ld]; simpl.
  destruct st as [st|]; [|done]. by destruct (run && negb (st =? 0)).
Qed.

(** X20.  The refresh only ever writes [time]: putting the old time back
    gives the old athlete.  Only the last refresh counts: a refresh at
    [n2] after one at [n1] gives what the refresh at [n2] alone gives, and
    athletes that are not running are returned as they are. *)
Theorem refresh_writes_time_only (n1 n2 : Z) (l : list Athlete) :
  updateTimers n2 (updateTimers n1 l) = updateTimers n2 l
  ∧ (∀ (k : nat) (a : Athlete), l !! k = Some a →
       ∃ a' : Athlete,
         updateTimers n1 l !! k = Some a'
         ∧ with_time a' (time a) = a
         ∧ (isRunning a = false → a' = a)).
Proof.
  unfold updateTimers. split.
  - rewrite List.map_map. apply List.map_ext. intros a.
    apply tickOne_tickOne.
  - intros k a Hk. exists (tickOne n1 a). rewrite lookup_map, Hk.
    split; [done|]. split; [apply tickOne_fields|].
    intros Hstop. unfold tickOne. rewrite Hstop.
    by destruct (startTime a).
Qed.

Lemma updateOne_updateOne (i : Z) (d1 d2 : UpdatedData) (a : Athlete) :
  updateOne i d2 (updateOne i d1 a) = updateOne i d2 a.
Proof.
  unfold updateOne. destruct (id a =? i) eqn:E; simpl; by rewrite E.
Qed.

(** X21.  An edit leaves the timer alone: the edited athlete keeps its
    id, time, laps, run state and start time, and gets exactly the name,
    target, target time, PB time and lap distance supplied, with the PB
    distance set to the new target.  Of two edits of the same id the
    second one wins. *)
Theorem edit_changes_configuration_only
  (i : Z) (d1 d2 : UpdatedData) (l : list Athlete) :
  handleUpdateAthlete i d2 (handleUpdateAthlete i d1 l)
  = handleUpdateAthlete i d2 l
  ∧ (∀ (k : nat) (a : Athlete), l !! k = Some a → id a = i →
       handleUpdateAthlete i d1 l !! k
       = Some {| id := id a; name := u_name d1; startTime := startTime a;
                 time := time a; laps := laps a; isRunning := isRunning a;
                 targetDistance := u_targetDistance d1;
                 targetTime := u_targetTime d1;
                 pbDistance := u_targetDistance d1;
                 pbTime := u_pbTime d1;
                 lapDistance := u_lapDistance d1 |}).
Proof.
  unfold handleUpdateAthlete. split.
  - rewrite List.map_map. apply List.map_ext. intros a.
    apply updateOne_updateOne.
  - intros k a Hk Hid. rewrite lookup_map, Hk. simpl.
    unfold updateOne. by rewrite <-Hid, Z.eqb_refl.
Qed.

Lemma edit_changes_configuration_only_witness :
  handleUpdateAthlete 1 (adaData 300)
    (handleUpdateAthlete 1 (adaData 1600) (athletes twoRunners))
  = handleUpdateAthlete 1 (adaData 300) (athletes twoRunners)
  ∧ handleUpdateAthlete 1 (adaData 1600) (athletes twoRunners) !! 1%nat
    = Some {| id := 1; name := "Ada"; startTime := Some 1000;
              time := 130000;
              laps := [mkLap 1 60000 400 61000; mkLap 2 130000 800 131000];
              isRunning := true; targetDistance := 1600; targetTime := 0;
              pbDistance := 1600; pbTime := 0; lapDistance := 400 |}.
Proof.
  destruct (edit_changes_configuration_only 1 (adaData 1600) (adaData 300)
              (athletes twoRunners)) as [Hcomp Hone].
  split; [exact Hcomp|].
  apply (Hone 1%nat
           {| id := 1; name := "Bo"; startTime := Some 1000; time := 130000;
              laps := [mkLap 1 60000 400 61000; mkLap 2 130000 800 131000];
              isRunning := true; targetDistance := 1600; targetTime := 0;
              pbDistance := 1600; pbTime := 0; lapDistance := 400 |});
    reflexivity.
Defined.

(** X22.  After a remove no athlete with the removed id is left, the list
    has not grown, and removing the same id again changes nothing. *)
Theorem remove_deletes_every_match (i : Z) (l : list Athlete) :
  (∀ a : Athlete, a ∈ handleRemoveAthlete i l → id a ≠ i)
  ∧ (length (handleRemoveAthlete i l) ≤ length l)%nat
  ∧ handleRemoveAthlete i (handleRemoveAthlete i l) = handleRemoveAthlete i l.
Proof.
  unfold handleRemoveAthlete. split; [|split].
  - intros a Ha. apply list_elem_of_In, List.filter_In in Ha as [_ Hne].
    by destruct (Z.eqb_spec (id a) i).
  - apply sublist_length, List_filter_sublist.
  - apply List_filter_all. intros a Ha.
    by apply list_elem_of_In, List.filter_In in Ha as [_ Hne].
Qed.
